(** * pfs/server/api_server.go: the routing layer of the pfs API server

    The API server owns no state.  Every operation is a sequence of calls
    to its three collaborators (the [sharder], the [router] and the
    [driver] fields of [apiServer]), to the API client of another node, to
    the stream helpers of [protoutil], and to the stream the driver hands
    out.  The collaborators are Go interfaces, so an operation is modelled
    as a tree of calls: each node is one call, with one subtree per
    answer.  Running a tree against an arbitrary implementation of the
    collaborators yields the value the operation returns, the list of
    calls it made, in order, and the final state of the collaborators. *)

From Stdlib Require Import ZArith String List Lia.
From Stdlib Require Import Init.Byte.
From stdpp Require Import base option list sorting gmap strings.

Local Open Scope Z_scope.

(** ** Data *)

(** Modelled from the spec: the types of package [pfs], whose
    declarations are not among the sources.  A path and a repository are
    keys that the server only passes on (the spec addresses files by a
    path such as "a/b.txt" and repositories by a name such as "repo"); an
    error is the message it carries.  A shard is a Go [int], here a [Z]:
    the only arithmetic on shards is the increment of the loop index of
    [getShards], which stays below the shard count. *)
Definition Path := string.
Definition Repository := string.
Definition error := string.

(** A Go pair [(v, err)]: [Ok v] when [err == nil], [Err err] otherwise.
    A lone [error] is an [option error], with [None] for [nil]. *)
Inductive result (A : Type) : Type :=
| Ok (a : A)
| Err (err : error).
Arguments Ok {A} a.
Arguments Err {A} err.

#[export] Instance error_eq_dec : EqDecision error := String.string_dec.

#[export] Instance result_eq_dec {A : Type} `{EqDecision A} : EqDecision (result A).
Proof. solve_decision. Defined.

(** Modelled from the spec: the request messages, with the fields that
    the server reads ([Repository], [Path], [Value]), and the response
    messages, which the server builds empty ([&pfs.PutFileResponse{}]). *)
Record InitRepositoryRequest := { ir_Repository : Repository }.
Record GetFileRequest := { gf_Path : Path }.
Record PutFileRequest := { pf_Path : Path; pf_Value : list byte }.

Inductive InitRepositoryResponse := InitRepositoryResponse_empty.
Inductive PutFileResponse := PutFileResponse_empty.
Inductive ListFilesResponse := ListFilesResponse_empty.
Inductive GetParentResponse := GetParentResponse_empty.
Inductive GetChildrenResponse := GetChildrenResponse_empty.
Inductive BranchResponse := BranchResponse_empty.
Inductive CommitResponse := CommitResponse_empty.
Inductive PushDiffResponse := PushDiffResponse_empty.
Inductive GetRepositoryInfoResponse := GetRepositoryInfoResponse_empty.
Inductive GetCommitInfoResponse := GetCommitInfoResponse_empty.

(** [context.Context]: the background context, or the one of a caller. *)
Inductive Context := Background | CallerContext (id : nat).

(** Modelled from the spec: the interface values that the server holds
    but never looks into, each one a handle. *)
Inductive APIClient := APIClientOf (node : nat).
Inductive ReadCloser := ReadCloserOf (fd : nat).
Inductive Api_GetFileServer := GetFileServerOf (stream : nat).
Inductive Api_GetFileClient := GetFileClientOf (stream : nat).

(** [bytes.Reader] of the Go library: a byte slice, a read offset and the
    index of the previous rune; [bytes.NewReader] starts at offset 0. *)
Record bytes_Reader := { rd_s : list byte; rd_i : Z; rd_prevRune : Z }.

Definition bytes_NewReader (b : list byte) : bytes_Reader :=
  {| rd_s := b; rd_i := 0; rd_prevRune := -1 |}.

(** ** Calls *)

(** Modelled from the spec: the interfaces [shard.Sharder],
    [route.Router], [drive.Driver] and [pfs.ApiClient] and the helpers of
    [protoutil], none of which is among the sources; each is taken with
    the signature it is called with in api_server.go.  There is one
    constructor per call the server makes, indexed by the type of the
    answer.  [range_map m] is the Go runtime starting a [range] over the
    map [m]: it answers with the keys in the order it will visit them. *)
Inductive event : Type -> Type :=
| sharder_GetShard (path : Path) : event (result Z)
| sharder_NumShards : event Z
| router_IsLocalMasterShard (shard : Z) : event (result bool)
| router_IsLocalSlaveShard (shard : Z) : event (result bool)
| router_GetAPIClient (shard : Z) : event (result APIClient)
| driver_InitRepository (repository : Repository) (shard : Z) : event (option error)
| driver_GetFile (path : Path) (shard : Z) : event (result ReadCloser)
| driver_PutFile (path : Path) (shard : Z) (reader : bytes_Reader) : event (option error)
| apiClient_GetFile (c : APIClient) (ctx : Context) (req : GetFileRequest)
  : event (result Api_GetFileClient)
| apiClient_PutFile (c : APIClient) (ctx : Context) (req : PutFileRequest)
  : event (result PutFileResponse)
| protoutil_RelayFromStreamingBytesClient
    (client : Api_GetFileClient) (server : Api_GetFileServer) : event (option error)
| protoutil_WriteToStreamingBytesServer
    (reader : ReadCloser) (server : Api_GetFileServer) : event (option error)
| readCloser_Close (rc : ReadCloser) : event (option error)
| range_map (m : gmap Z bool) : event (list Z).

(** A call together with its answer. *)
Inductive call : Type :=
| Called {X : Type} (e : event X) (x : X).

Notation "e ↦ x" := (Called e x) (at level 60, no associativity).

(** ** Programs *)

Inductive prog (R : Type) : Type :=
| Ret (r : R)
| Vis {X : Type} (e : event X) (k : X -> prog R).
Arguments Ret {R} r.
Arguments Vis {R X} e k.

Fixpoint bind {A B : Type} (m : prog A) (f : A -> prog B) : prog B :=
  match m with
  | Ret a => f a
  | Vis e k => Vis e (fun x => bind (k x) f)
  end.

Definition trigger {X : Type} (e : event X) : prog X := Vis e Ret.

#[export] Instance prog_ret : MRet prog := @Ret.
#[export] Instance prog_bind : MBind prog := fun A B f m => bind m f.

(** An implementation of the collaborators over a state [W]. *)
Definition handler (W : Type) : Type := forall X : Type, event X -> W -> X * W.

Record outcome (R W : Type) : Type :=
  Outcome { value : R; calls : list call; state : W }.
Arguments Outcome {R W} value calls state.
Arguments value {R W} o.
Arguments calls {R W} o.
Arguments state {R W} o.

Fixpoint run {W R : Type} (h : handler W) (m : prog R) (w : W) : outcome R W :=
  match m with
  | Ret r => Outcome r [] w
  | Vis e k =>
      let (x, w1) := h _ e w in
      let o := run h (k x) w1 in
      Outcome (value o) ((e ↦ x) :: calls o) (state o)
  end.

(** ** The server *)

(** [for k := range m { body }], where the body may return early with an
    error. *)
Fixpoint for_each (keys : list Z) (body : Z -> prog (option error))
  : prog (option error) :=
  match keys with
  | [] => mret None
  | k :: keys =>
      err ← body k;
      match err with
      | Some err => mret (Some err)
      | None => for_each keys body
      end
  end.

Definition for_range (m : gmap Z bool) (body : Z -> prog (option error))
  : prog (option error) :=
  keys ← trigger (range_map m);
  for_each keys body.

(** The loop of [getShards]: [iters] iterations are left, [i] is the
    index, [m] the map built so far. *)
Fixpoint getShards_loop (isShardFunc : Z -> prog (result bool))
    (iters : nat) (i : Z) (m : gmap Z bool) : prog (result (gmap Z bool)) :=
  match iters with
  | O => mret (Ok m)
  | S iters =>
      r ← isShardFunc i;
      match r : result bool with
      | Err err => mret (Err err)
      | Ok ok =>
          getShards_loop isShardFunc iters (i + 1)
            (if ok then <[i := true]> m else m)
      end
  end.

Definition getShards (isShardFunc : Z -> prog (result bool))
  : prog (result (gmap Z bool)) :=
  numShards ← trigger sharder_NumShards;
  getShards_loop isShardFunc (Z.to_nat numShards) 0 ∅.

Definition getMasterShards : prog (result (gmap Z bool)) :=
  getShards (fun shard => trigger (router_IsLocalMasterShard shard)).

Definition getSlaveShards : prog (result (gmap Z bool)) :=
  getShards (fun shard => trigger (router_IsLocalSlaveShard shard)).

Definition InitRepository (ctx : Context)
    (initRepositoryRequest : InitRepositoryRequest)
  : prog (result InitRepositoryResponse) :=
  r ← getMasterShards;
  match r with
  | Err err => mret (Err err)
  | Ok shards =>
  err ← for_range shards (fun shard =>
          trigger (driver_InitRepository
                     (ir_Repository initRepositoryRequest) shard));
  match err with
  | Some err => mret (Err err)
  | None =>
  r ← getSlaveShards;
  match r with
  | Err err => mret (Err err)
  | Ok shards =>
  err ← for_range shards (fun shard =>
          trigger (driver_InitRepository
                     (ir_Repository initRepositoryRequest) shard));
  match err with
  | Some err => mret (Err err)
  | None => mret (Ok InitRepositoryResponse_empty)
  end end end end.

(** [defer]: the deferred function runs when the body has returned, sees
    the named result and may replace it. *)
Definition defer {R : Type} (deferred : R -> prog R) (body : prog R) : prog R :=
  retErr ← body;
  deferred retErr.

Definition GetFile (getFileRequest : GetFileRequest)
    (apiGetFileServer : Api_GetFileServer) : prog (option error) :=
  r ← trigger (sharder_GetShard (gf_Path getFileRequest));
  match r with
  | Err err => mret (Some err)
  | Ok shard =>
  r ← trigger (router_IsLocalMasterShard shard);
  match r with
  | Err err => mret (Some err)
  | Ok ok =>
  if negb ok then
    r ← trigger (router_GetAPIClient shard);
    match r with
    | Err err => mret (Some err)
    | Ok apiClient =>
    r ← trigger (apiClient_GetFile apiClient Background getFileRequest);
    match r with
    | Err err => mret (Some err)
    | Ok apiGetFileClient =>
        trigger (protoutil_RelayFromStreamingBytesClient
                   apiGetFileClient apiGetFileServer)
    end end
  else
    r ← trigger (driver_GetFile (gf_Path getFileRequest) shard);
    match r with
    | Err err => mret (Some err)
    | Ok readCloser =>
        defer
          (fun retErr =>
             err ← trigger (readCloser_Close readCloser);
             mret (match err, retErr with
                   | Some err, None => Some err
                   | _, _ => retErr
                   end))
          (trigger (protoutil_WriteToStreamingBytesServer
                      readCloser apiGetFileServer))
    end
  end end.

Definition PutFile (ctx : Context) (putFileRequest : PutFileRequest)
  : prog (result PutFileResponse) :=
  r ← trigger (sharder_GetShard (pf_Path putFileRequest));
  match r with
  | Err err => mret (Err err)
  | Ok shard =>
  r ← trigger (router_IsLocalMasterShard shard);
  match r with
  | Err err => mret (Err err)
  | Ok ok =>
  if negb ok then
    r ← trigger (router_GetAPIClient shard);
    match r with
    | Err err => mret (Err err)
    | Ok apiClient => trigger (apiClient_PutFile apiClient ctx putFileRequest)
    end
  else
    err ← trigger (driver_PutFile (pf_Path putFileRequest) shard
                     (bytes_NewReader (pf_Value putFileRequest)));
    match err with
    | Some err => mret (Err err)
    | None => mret (Ok PutFileResponse_empty)
    end
  end end.

(** The operations that are not implemented yet.  The request messages of
    these are not read: their types are left open. *)
Section Stubs.
Context {ListFilesRequest GetParentRequest GetChildrenRequest BranchRequest
         CommitRequest PullDiffRequest Api_PullDiffServer PushDiffRequest
         GetRepositoryInfoRequest GetCommitInfoRequest : Type}.

Definition ListFiles (ctx : Context) (listFilesRequest : ListFilesRequest)
  : prog (result ListFilesResponse) :=
  mret (Ok ListFilesResponse_empty).

Definition GetParent (ctx : Context) (getParentRequest : GetParentRequest)
  : prog (result GetParentResponse) :=
  mret (Ok GetParentResponse_empty).

Definition GetChildren (ctx : Context) (getChildrenRequest : GetChildrenRequest)
  : prog (result GetChildrenResponse) :=
  mret (Ok GetChildrenResponse_empty).

Definition Branch (ctx : Context) (branchRequest : BranchRequest)
  : prog (result BranchResponse) :=
  mret (Ok BranchResponse_empty).

Definition Commit (ctx : Context) (commitRequest : CommitRequest)
  : prog (result CommitResponse) :=
  mret (Ok CommitResponse_empty).

Definition PullDiff (pullDiffRequest : PullDiffRequest)
    (apiPullDiffServer : Api_PullDiffServer) : prog (option error) :=
  mret None.

Definition PushDiff (ctx : Context) (pushDiffRequest : PushDiffRequest)
  : prog (result PushDiffResponse) :=
  mret (Ok PushDiffResponse_empty).

Definition GetRepositoryInfo (ctx : Context)
    (getRepositoryInfoRequest : GetRepositoryInfoRequest)
  : prog (result GetRepositoryInfoResponse) :=
  mret (Ok GetRepositoryInfoResponse_empty).

Definition GetCommitInfo (ctx : Context)
    (getCommitInfoRequest : GetCommitInfoRequest)
  : prog (result GetCommitInfoResponse) :=
  mret (Ok GetCommitInfoResponse_empty).
End Stubs.

(** ** Reading a list of calls *)

(** Whom a call goes to. *)
Inductive collaborator :=
| TheSharder | TheRouter | TheDriver | LocalStream
| RemoteClient | RemoteStream | GoRuntime.

#[export] Instance collaborator_eq_dec : EqDecision collaborator.
Proof. solve_decision. Defined.

Definition collaborator_of (c : call) : collaborator :=
  match c with
  | Called e _ =>
      match e with
      | sharder_GetShard _ | sharder_NumShards => TheSharder
      | router_IsLocalMasterShard _ | router_IsLocalSlaveShard _
      | router_GetAPIClient _ => TheRouter
      | driver_InitRepository _ _ | driver_GetFile _ _
      | driver_PutFile _ _ _ => TheDriver
      | apiClient_GetFile _ _ _ | apiClient_PutFile _ _ _ => RemoteClient
      | protoutil_RelayFromStreamingBytesClient _ _ => RemoteStream
      | protoutil_WriteToStreamingBytesServer _ _
      | readCloser_Close _ => LocalStream
      | range_map _ => GoRuntime
      end
  end.

Definition calls_to (who : collaborator) (tr : list call) : list call :=
  filter (fun c => collaborator_of c = who) tr.

(** The calls that reach the storage of this node: the driver, and the
    stream the driver has handed out. *)
Definition local_storage_calls (tr : list call) : list call :=
  filter (fun c => collaborator_of c = TheDriver \/ collaborator_of c = LocalStream) tr.

(** The error a call has answered with, if any. *)
Definition result_error {A : Type} (r : result A) : option error :=
  match r with
  | Ok _ => None
  | Err err => Some err
  end.

Definition error_of_call (c : call) : option error :=
  match c with
  | @Called X e x =>
      match e in event X return X -> option error with
      | sharder_GetShard _ => result_error
      | sharder_NumShards => fun _ => None
      | router_IsLocalMasterShard _ => result_error
      | router_IsLocalSlaveShard _ => result_error
      | router_GetAPIClient _ => result_error
      | driver_InitRepository _ _ => fun err => err
      | driver_GetFile _ _ => result_error
      | driver_PutFile _ _ _ => fun err => err
      | apiClient_GetFile _ _ _ => result_error
      | apiClient_PutFile _ _ _ => result_error
      | protoutil_RelayFromStreamingBytesClient _ _ => fun err => err
      | protoutil_WriteToStreamingBytesServer _ _ => fun err => err
      | readCloser_Close _ => fun err => err
      | range_map _ => fun _ => None
      end x
  end.

(** The error of the first call that failed. *)
Fixpoint first_error (tr : list call) : option error :=
  match tr with
  | [] => None
  | c :: tr =>
      match error_of_call c with
      | Some err => Some err
      | None => first_error tr
      end
  end.

(** The applications of [driver.InitRepository]: repository, shard and
    answer. *)
Definition init_of (c : call) : option (Repository * Z * option error) :=
  match c with
  | @Called X e x =>
      match e in event X return X -> option (Repository * Z * option error) with
      | driver_InitRepository repository shard =>
          fun err => Some (repository, shard, err)
      | _ => fun _ => None
      end x
  end.

Definition inits (tr : list call) : list (Repository * Z * option error) :=
  omap init_of tr.

(** The orders in which the runtime has walked the maps. *)
Definition range_of (c : call) : option (list Z) :=
  match c with
  | @Called X e x =>
      match e in event X return X -> option (list Z) with
      | range_map _ => fun keys => Some keys
      | _ => fun _ => None
      end x
  end.

Definition ranges (tr : list call) : list (list Z) := omap range_of tr.

(** The byte slices that a call hands over in one piece. *)
Definition slices_of (c : call) : list (list byte) :=
  match c with
  | Called e _ =>
      match e with
      | driver_PutFile _ _ reader => [rd_s reader]
      | apiClient_PutFile _ _ req => [pf_Value req]
      | _ => []
      end
  end.

(** What a single-path operation owes: [tr] is its list of calls,
    [local_op] the driver call for a shard and [remote_op] the same
    operation on the API client of another node.  The first call asks the
    sharder for the shard of the path, and the second asks the router
    whether this node is the local master of that shard.  When it is, the
    driver is called once, with [local_op], and no other node is.  When
    it is not, nothing local is called, the router is asked for the
    client of the shard and [remote_op] is called once on the client it
    gives.  In no case are both the driver and another node called. *)
Definition single_path {X Y : Type} (path : Path) (tr : list call)
    (local_op : Z -> event X) (remote_op : APIClient -> event Y) : Prop :=
  (exists a,
      head tr = Some (sharder_GetShard path ↦ a)
      /\ match a with
         | Err _ => tail tr = []
         | Ok shard =>
             exists b,
               tr !! 1%nat = Some (router_IsLocalMasterShard shard ↦ b)
               /\ match b with
                  | Err _ =>
                      calls_to TheDriver tr = [] /\ calls_to RemoteClient tr = []
                  | Ok true =>
                      (exists x, calls_to TheDriver tr = [local_op shard ↦ x])
                      /\ calls_to RemoteClient tr = []
                      /\ calls_to RemoteStream tr = []
                  | Ok false =>
                      local_storage_calls tr = []
                      /\ exists c,
                           tr !! 2%nat = Some (router_GetAPIClient shard ↦ c)
                           /\ match c with
                              | Ok client =>
                                  exists y,
                                    calls_to RemoteClient tr = [remote_op client ↦ y]
                              | Err _ => calls_to RemoteClient tr = []
                              end
                  end
         end)
  /\ (calls_to TheDriver tr = [] \/ calls_to RemoteClient tr = []).

(** The storage of this node is the part [store] of the state of the
    collaborators: only calls to the driver change it. *)
Definition only_driver_writes {W S : Type} (h : handler W) (store : W -> S) : Prop :=
  forall (X : Type) (e : event X) (w : W),
    collaborator_of (e ↦ (h X e w).1) <> TheDriver ->
    store (h X e w).2 = store w.

(** The keys of a Go map, and the shards below [n] that a role predicate
    holds of. *)
Definition keys (m : gmap Z bool) : list Z := (map_to_list m).*1.

Definition shards_where (n : Z) (p : Z -> bool) : list Z :=
  filter (fun i => p i = true) (seqZ 0 n).

(** The Go runtime visits every key of a map once, in an order of its
    choice. *)
Definition go_range {W : Type} (h : handler W) : Prop :=
  forall (m : gmap Z bool) (w : W), (h _ (range_map m) w).1 ≡ₚ keys m.

(** The calls of a shard-set query go to the sharder and to the router. *)
Definition only_queries (tr : list call) : Prop :=
  Forall (fun c => collaborator_of c = TheSharder \/ collaborator_of c = TheRouter) tr.

(** One application of [driver.InitRepository] that has succeeded. *)
Definition applied (repo : Repository) (shard : Z) : call :=
  driver_InitRepository repo shard ↦ None.

(** The body of the two loops of [InitRepository]. *)
Definition init_all (repo : Repository) (shard : Z) : prog (option error) :=
  trigger (driver_InitRepository repo shard).

(** ** A test double *)

(** An in-memory cluster: what each collaborator answers.  Its state is
    the list of shards whose local storage has been written, last first. *)
Record cluster := {
  c_numShards : Z;
  c_shard : Path -> result Z;
  c_master : Z -> result bool;
  c_slave : Z -> result bool;
  c_client : Z -> result APIClient;
  c_order : list Z -> list Z;
  c_init : Z -> option error;
  c_get : Z -> result ReadCloser;
  c_put : Z -> option error;
  c_remote_get : result Api_GetFileClient;
  c_remote_put : result PutFileResponse;
  c_relay : option error;
  c_write : option error;
  c_close : option error
}.

Definition written (err : option error) (shard : Z) (w : list Z) : list Z :=
  match err with
  | None => shard :: w
  | Some _ => w
  end.

Definition fake (c : cluster) : handler (list Z) :=
  fun X e =>
    match e in event X return list Z -> X * list Z with
    | sharder_GetShard path => fun w => (c_shard c path, w)
    | sharder_NumShards => fun w => (c_numShards c, w)
    | router_IsLocalMasterShard shard => fun w => (c_master c shard, w)
    | router_IsLocalSlaveShard shard => fun w => (c_slave c shard, w)
    | router_GetAPIClient shard => fun w => (c_client c shard, w)
    | driver_InitRepository _ shard =>
        fun w => (c_init c shard, written (c_init c shard) shard w)
    | driver_GetFile _ shard => fun w => (c_get c shard, w)
    | driver_PutFile _ shard _ =>
        fun w => (c_put c shard, written (c_put c shard) shard w)
    | apiClient_GetFile _ _ _ => fun w => (c_remote_get c, w)
    | apiClient_PutFile _ _ _ => fun w => (c_remote_put c, w)
    | protoutil_RelayFromStreamingBytesClient _ _ => fun w => (c_relay c, w)
    | protoutil_WriteToStreamingBytesServer _ _ => fun w => (c_write c, w)
    | readCloser_Close _ => fun w => (c_close c, w)
    | range_map m => fun w => (c_order c (keys m), w)
    end.

Definition among (shards : list Z) (shard : Z) : bool :=
  bool_decide (shard ∈ shards).

(** Four shards; this node is master of 0 and 2 and slave of 1 and 3.
    The sharder sends ["a/b.txt"] to shard 3, every other path to shard
    2, and has no shard for the empty path.  The runtime walks a map in
    the order [order]; the driver answers [init] and [put]; the node that
    owns a shard answers [remote_put]. *)
Definition four_shards_with (order : list Z -> list Z)
    (init put : Z -> option error) (remote_put : result PutFileResponse)
    (write close : option error) : cluster :=
  {| c_numShards := 4;
     c_shard := fun path =>
       if String.eqb path "" then Err "empty path"
       else if String.eqb path "a/b.txt" then Ok 3 else Ok 2;
     c_master := fun shard => Ok (among [0; 2] shard);
     c_slave := fun shard => Ok (among [1; 3] shard);
     c_client := fun shard => Ok (APIClientOf (Z.to_nat shard));
     c_order := order;
     c_init := init;
     c_get := fun shard => Ok (ReadCloserOf (Z.to_nat shard));
     c_put := put;
     c_remote_get := Ok (GetFileClientOf 7);
     c_remote_put := remote_put;
     c_relay := None;
     c_write := write;
     c_close := close |}.

(** Two orders in which a runtime may walk the keys of a map. *)
Definition ascending (ks : list Z) : list Z := merge_sort Z.le ks.
Definition descending (ks : list Z) : list Z := merge_sort Z.ge ks.

Definition four_shards : cluster :=
  four_shards_with ascending (fun _ => None) (fun _ => None)
    (Ok PutFileResponse_empty) None None.

(** The same cluster with a driver whose disk is full on the shards
    [full]. *)
Definition disk_full (full : list Z) (shard : Z) : option error :=
  if among full shard then Some "disk full" else None.

Definition four_shards_full (order : list Z -> list Z) (full : list Z) : cluster :=
  four_shards_with order (disk_full full) (disk_full full)
    (Err "disk full") None None.

Definition repo_request : InitRepositoryRequest := {| ir_Repository := "repo" |}.

Definition put_request (path : Path) : PutFileRequest :=
  {| pf_Path := path; pf_Value := ["a"; "b"; "c"]%byte |}.

(** The four-shard cluster with a router that cannot tell whether this
    node is the master of shard 1. *)
Definition router_down : cluster :=
  {| c_numShards := 4;
     c_shard := c_shard four_shards;
     c_master := fun shard =>
       if bool_decide (shard = 1) then Err "router down" else Ok true;
     c_slave := c_slave four_shards;
     c_client := c_client four_shards;
     c_order := ascending;
     c_init := fun _ => None;
     c_get := c_get four_shards;
     c_put := fun _ => None;
     c_remote_get := c_remote_get four_shards;
     c_remote_put := c_remote_put four_shards;
     c_relay := None;
     c_write := None;
     c_close := None |}.

From Stdlib Require Import Ascii.

(** ** More ways to read a list of calls *)

(** The two roles the router is asked about, and the shards it has been
    asked about for a role. *)
Inductive role := Master | Slave.

Definition asked_of (r : role) (c : call) : option Z :=
  match c with
  | Called e _ =>
      match e, r with
      | router_IsLocalMasterShard shard, Master => Some shard
      | router_IsLocalSlaveShard shard, Slave => Some shard
      | _, _ => None
      end
  end.

Definition asked (r : role) (tr : list call) : list Z := omap (asked_of r) tr.

(** The shards for which the router has answered a role question with
    (true, nil). *)
Definition yes_of (r : role) (c : call) : option Z :=
  match c with
  | @Called X e x =>
      match e in event X return X -> option Z with
      | router_IsLocalMasterShard shard =>
          fun a => match r, a with
                   | Master, Ok true => Some shard
                   | _, _ => None
                   end
      | router_IsLocalSlaveShard shard =>
          fun a => match r, a with
                   | Slave, Ok true => Some shard
                   | _, _ => None
                   end
      | _ => fun _ => None
      end x
  end.

Definition said_yes (r : role) (tr : list call) : list Z := omap (yes_of r) tr.

(** The walks of the runtime: the map walked and the order of the walk. *)
Definition walk_of (c : call) : option (gmap Z bool * list Z) :=
  match c with
  | @Called X e x =>
      match e in event X return X -> option (gmap Z bool * list Z) with
      | range_map m => fun order => Some (m, order)
      | _ => fun _ => None
      end x
  end.

Definition walks (tr : list call) : list (gmap Z bool * list Z) := omap walk_of tr.

(** The streams that [driver.GetFile] has handed out, and the streams
    that have been closed. *)
Definition opened_of (c : call) : option ReadCloser :=
  match c with
  | @Called X e x =>
      match e in event X return X -> option ReadCloser with
      | driver_GetFile _ _ =>
          fun r => match r with
                   | Ok rc => Some rc
                   | Err _ => None
                   end
      | _ => fun _ => None
      end x
  end.

Definition closed_of (c : call) : option ReadCloser :=
  match c with
  | Called e _ =>
      match e with
      | readCloser_Close rc => Some rc
      | _ => None
      end
  end.

Definition opened (tr : list call) : list ReadCloser := omap opened_of tr.
Definition closed (tr : list call) : list ReadCloser := omap closed_of tr.

(** A cluster without shards. *)
Definition no_shards : cluster :=
  {| c_numShards := 0;
     c_shard := fun _ => Err "no shards";
     c_master := fun _ => Ok true;
     c_slave := fun _ => Ok true;
     c_client := fun _ => Err "no shards";
     c_order := ascending;
     c_init := fun _ => Some "no such shard"%string;
     c_get := fun _ => Err "no such shard";
     c_put := fun _ => Some "no such shard"%string;
     c_remote_get := Err "no shards";
     c_remote_put := Err "no shards";
     c_relay := None;
     c_write := None;
     c_close := None |}.

(** ** server/pkg/cmdutil: reading command-line arguments *)

(** [strings.SplitN] and [strings.Replace] of the Go library, for a
    separator of one byte, which is what every call in the sources has.
    A Go string is a sequence of bytes, as a [string] is here.
    [split_cuts sep cuts s] cuts [s] at its first [cuts] separators and
    gives the first piece and the pieces after it. *)
Fixpoint split_cuts (sep : ascii) (cuts : nat) (s : string) {struct s}
  : string * list string :=
  match s with
  | EmptyString => (EmptyString, [])
  | String c s' =>
      match cuts with
      | O => (s, [])
      | S cuts' =>
          if Ascii.eqb c sep
          then (EmptyString, let (p, ps) := split_cuts sep cuts' s' in p :: ps)
          else let (p, ps) := split_cuts sep cuts s' in (String c p, ps)
      end
  end.

(** [n > 0]: at most [n] pieces, the last one being the unsplit rest;
    [n == 0]: no piece (nil); [n < 0]: all pieces. *)
Definition strings_SplitN (s : string) (sep : ascii) (n : Z) : list string :=
  if n =? 0 then []
  else
    let (p, ps) :=
      split_cuts sep (if n <? 0 then String.length s else Z.to_nat (n - 1)) s in
    p :: ps.

Fixpoint replace_first (old new : ascii) (count : nat) (s : string) : string :=
  match s with
  | EmptyString => EmptyString
  | String c s' =>
      match count with
      | O => s
      | S count' =>
          if Ascii.eqb c old
          then String new (replace_first old new count' s')
          else String c (replace_first old new count s')
      end
  end.

(** The first [n] occurrences are replaced, all of them when [n < 0]. *)
Definition strings_Replace (s : string) (old new : ascii) (n : Z) : string :=
  replace_first old new (if n <? 0 then String.length s else Z.to_nat n) s.

(** Whether a byte occurs in a string. *)
Fixpoint has_byte (c : ascii) (s : string) : bool :=
  match s with
  | EmptyString => false
  | String c' s' => Ascii.eqb c' c || has_byte c s'
  end.

(** [parts[i]]; every index the sources use is shown to be in range. *)
Definition part (parts : list string) (i : nat) : string := nth i parts EmptyString.

(** Modelled from the spec: the messages of package [client/pfs] that the
    parsers build, with the fields the parsers set. *)
Module pfsclient.
Record Repo := { Repo_Name : string }.
Record Commit := { Commit_Repo : Repo; Commit_ID : string }.
Record Branch := { Branch_Repo : Repo; Branch_Name : string }.
Record File := { File_Commit : Commit; File_Path : string }.
End pfsclient.

(** The double quote, and the two messages of [fmt.Errorf]. *)
Definition dquote : string := String "034"%char EmptyString.

Definition repo_cannot_be_empty (arg : string) : error :=
  "invalid format " +:+ dquote +:+ arg +:+ dquote +:+ ": repo cannot be empty".

Definition commit_cannot_be_empty (arg : string) : error :=
  "invalid format " +:+ dquote +:+ arg +:+ dquote +:+ ": commit cannot be empty".

Definition ParseCommit (arg : string) : result pfsclient.Commit :=
  let parts := strings_SplitN arg "@" 2 in
  if String.eqb (part parts 0) "" then Err (repo_cannot_be_empty arg)
  else
    let commit :=
      {| pfsclient.Commit_Repo := {| pfsclient.Repo_Name := part parts 0 |};
         pfsclient.Commit_ID := "" |} in
    let commit :=
      if (length parts =? 2)%nat
      then {| pfsclient.Commit_Repo := pfsclient.Commit_Repo commit;
              pfsclient.Commit_ID := part parts 1 |}
      else commit in
    Ok commit.

Definition ParseBranch (arg : string) : result pfsclient.Branch :=
  match ParseCommit arg with
  | Err err => Err err
  | Ok commit =>
      Ok {| pfsclient.Branch_Repo := pfsclient.Commit_Repo commit;
            pfsclient.Branch_Name := pfsclient.Commit_ID commit |}
  end.

Definition ParseFile (arg : string) : result pfsclient.File :=
  let repoAndRest := strings_SplitN arg "@" 2 in
  if String.eqb (part repoAndRest 0) "" then Err (repo_cannot_be_empty arg)
  else
    let file :=
      {| pfsclient.File_Commit :=
           {| pfsclient.Commit_Repo := {| pfsclient.Repo_Name := part repoAndRest 0 |};
              pfsclient.Commit_ID := "" |};
         pfsclient.File_Path := "" |} in
    if (1 <? length repoAndRest)%nat then
      let commitAndPath := strings_SplitN (part repoAndRest 1) ":" 2 in
      if String.eqb (part commitAndPath 0) "" then Err (commit_cannot_be_empty arg)
      else
        let file :=
          {| pfsclient.File_Commit :=
               {| pfsclient.Commit_Repo :=
                    pfsclient.Commit_Repo (pfsclient.File_Commit file);
                  pfsclient.Commit_ID := part commitAndPath 0 |};
             pfsclient.File_Path := pfsclient.File_Path file |} in
        let file :=
          if (1 <? length commitAndPath)%nat
          then {| pfsclient.File_Commit := pfsclient.File_Commit file;
                  pfsclient.File_Path := part commitAndPath 1 |}
          else file in
        Ok file
    else Ok file.

(** The loop of [ParseCommits], [ParseBranches] and [ParseFiles]: the
    three are the same loop around [ParseCommit], [ParseBranch] and
    [ParseFile].  [results] is the slice built so far. *)
Fixpoint parse_args {A : Type} (parse : string -> result A) (args : list string)
    (results : list A) : result (list A) :=
  match args with
  | [] => Ok results
  | arg :: args =>
      match parse arg with
      | Err err => Err err
      | Ok x => parse_args parse args (results ++ [x])
      end
  end.

Definition ParseCommits (args : list string) : result (list pfsclient.Commit) :=
  parse_args ParseCommit args [].

Definition ParseBranches (args : list string) : result (list pfsclient.Branch) :=
  parse_args ParseBranch args [].

Definition ParseFiles (args : list string) : result (list pfsclient.File) :=
  parse_args ParseFile args [].

(** [RepeatedStringArg], a [[]string] that is a command-line flag. *)
Definition RepeatedStringArg := list string.

Fixpoint RepeatedStringArg_String_loop (i : nat) (r : list string) (result : string)
  : string :=
  match r with
  | [] => result
  | s :: r =>
      RepeatedStringArg_String_loop (S i) r
        ((if (i =? 0)%nat then result else result +:+ ", ") +:+ s)
  end.

Definition RepeatedStringArg_String (r : RepeatedStringArg) : string :=
  RepeatedStringArg_String_loop 0 r "[" +:+ "]".

Definition RepeatedStringArg_Set (r : RepeatedStringArg) (s : string)
  : RepeatedStringArg * option error :=
  (r ++ [s], None).

Definition RepeatedStringArg_Type (r : RepeatedStringArg) : string := "[]string".

(** ** server/cmd/pachctl/cmd/compat.go: the commands of version 1.8 *)

(** [transformRepoSlashBranch]: every argument has its first "/" turned
    into "@", and the new command runs on the result; [newRun] is that
    command, acting on a state [S]. *)
Definition transformRepoSlashBranch {S : Type} (newRun : list string -> S -> S)
    (args : list string) (st : S) : option error * S :=
  let newArgs :=
    fold_left (fun newArgs arg => newArgs ++ [strings_Replace arg "/" "@" 1]) args [] in
  (None, newRun newArgs st).

(** The [Use] line that the loop over [simpleCompat] gives to the alias
    [oldName] of a command whose [Use] line is [use]. *)
Definition simpleCompat_Use (oldName use : string) : string :=
  let useSplit := strings_SplitN use " " 1 in
  if (length useSplit =? 2)%nat
  then oldName +:+ " " +:+ part useSplit 1
  else oldName.

(** ** Running programs *)

Lemma run_ret {W R : Type} (h : handler W) (r : R) (w : W) :
  run h (mret r) w = Outcome r [] w.
Proof. reflexivity. Qed.

Lemma run_trigger {W X : Type} (h : handler W) (e : event X) (w : W) :
  run h (trigger e) w = Outcome (h _ e w).1 [e ↦ (h _ e w).1] (h _ e w).2.
Proof. simpl. destruct (h X e w); reflexivity. Qed.

Lemma run_bind {W A B : Type} (h : handler W) (m : prog A) (f : A -> prog B) (w : W) :
  run h (m ≫= f) w =
  Outcome (value (run h (f (value (run h m w))) (state (run h m w))))
          (calls (run h m w) ++ calls (run h (f (value (run h m w))) (state (run h m w))))
          (state (run h (f (value (run h m w))) (state (run h m w)))).
Proof.
  unfold mbind, prog_bind. revert w.
  induction m as [a | X e k IH]; intros w; simpl.
  - destruct (run h (f a) w); reflexivity.
  - destruct (h X e w) as [x w1]. rewrite IH. reflexivity.
Qed.

Lemma first_error_app (tr1 tr2 : list call) :
  first_error (tr1 ++ tr2) =
  match first_error tr1 with
  | Some err => Some err
  | None => first_error tr2
  end.
Proof.
  induction tr1 as [| c tr1 IH]; simpl; [reflexivity |].
  destruct (error_of_call c); [reflexivity | exact IH].
Qed.

Lemma inits_app (tr1 tr2 : list call) : inits (tr1 ++ tr2) = inits tr1 ++ inits tr2.
Proof. apply omap_app. Qed.

Lemma ranges_app (tr1 tr2 : list call) : ranges (tr1 ++ tr2) = ranges tr1 ++ ranges tr2.
Proof. apply omap_app. Qed.

Lemma calls_to_app (who : collaborator) (tr1 tr2 : list call) :
  calls_to who (tr1 ++ tr2) = calls_to who tr1 ++ calls_to who tr2.
Proof. apply filter_app. Qed.

Lemma fake_go_range (c : cluster) :
  (forall ks, c_order c ks ≡ₚ ks) -> go_range (fake c).
Proof. intros Hperm m w. simpl. apply Hperm. Qed.

Lemma ascending_perm (ks : list Z) : ascending ks ≡ₚ ks.
Proof. apply merge_sort_Permutation. Qed.

Lemma descending_perm (ks : list Z) : descending ks ≡ₚ ks.
Proof. apply merge_sort_Permutation. Qed.

(** Storage is as it was after a run that has not called the driver. *)
Lemma store_kept_without_driver {W R S : Type} (h : handler W) (store : W -> S)
    (m : prog R) (w : W) :
  only_driver_writes h store ->
  calls_to TheDriver (calls (run h m w)) = [] ->
  store (state (run h m w)) = store w.
Proof.
  intros Hstore. revert w.
  induction m as [r | X e k IH]; intros w Hnone; [reflexivity |].
  simpl in *. specialize (Hstore X e w).
  destruct (h X e w) as [x w1]. simpl in *.
  unfold calls_to in Hnone. rewrite filter_cons in Hnone.
  destruct (decide (collaborator_of (e ↦ x) = TheDriver)) as [| Hother];
    [discriminate Hnone |].
  rewrite (IH x w1 Hnone). apply Hstore.
  by destruct e.
Qed.

Lemma fake_only_driver_writes (c : cluster) :
  only_driver_writes (fake c) (fun w => w).
Proof.
  intros X e w Hother.
  destruct e; try reflexivity; exfalso; apply Hother; reflexivity.
Qed.

(** ** The scenarios of the specification, run on the test double *)

(** Four shards, masters 0 and 2, slaves 1 and 3: four applications, the
    masters first; the storage of the four shards is written. *)
Example InitRepository_four_shards :
  let o := run (fake four_shards) (InitRepository Background repo_request) [] in
  value o = Ok InitRepositoryResponse_empty
  /\ inits (calls o) =
     [("repo"%string, 0, None); ("repo"%string, 2, None);
      ("repo"%string, 1, None); ("repo"%string, 3, None)]
  /\ state o = [3; 1; 2; 0].
Proof. repeat split. Qed.

(** ["a/b.txt"] lives on shard 3, which another node owns: one remote
    call, relayed to the caller, and nothing local. *)
Example GetFile_forwarded :
  run (fake four_shards) (GetFile {| gf_Path := "a/b.txt" |} (GetFileServerOf 0)) [] =
  Outcome None
    [sharder_GetShard "a/b.txt" ↦ Ok 3;
     router_IsLocalMasterShard 3 ↦ Ok false;
     router_GetAPIClient 3 ↦ Ok (APIClientOf 3);
     apiClient_GetFile (APIClientOf 3) Background {| gf_Path := "a/b.txt" |}
       ↦ Ok (GetFileClientOf 7);
     protoutil_RelayFromStreamingBytesClient (GetFileClientOf 7) (GetFileServerOf 0)
       ↦ None]
    [].
Proof. reflexivity. Qed.

(** A forwarded write that fails on the other node: its error comes
    back and nothing is written here. *)
Example PutFile_forwarded_failure :
  let o := run (fake (four_shards_full ascending []))
             (PutFile Background (put_request "a/b.txt")) [] in
  value o = Err "disk full" /\ calls_to TheDriver (calls o) = [] /\ state o = [].
Proof. repeat split. Qed.

(** ** Single-path operations *)

(** Ask the implementation for the answer to the next call. *)
Ltac answer :=
  match goal with
  | H : ?h ?X ?e ?w = _ |- context [?h ?X ?e ?w] => rewrite H; simpl
  | |- context [let (_, _) := ?h ?X ?e ?w in _] =>
      let x := fresh "x" in
      let w' := fresh "w" in
      destruct (h X e w) as [x w']; simpl
  end.

Ltac straight_line :=
  unfold mbind, prog_bind, defer, trigger; simpl;
  repeat (answer;
          repeat match goal with
            | x : result _ |- _ => destruct x; simpl
            | x : option _ |- _ => destruct x; simpl
            | x : bool |- _ => destruct x; simpl
            end).

(** The full list of calls of [PutFile], case by case. *)
Lemma PutFile_calls {W : Type} (h : handler W) (w : W) (ctx : Context)
    (req : PutFileRequest) :
  let o := run h (PutFile ctx req) w in
  let path := pf_Path req in
  (exists err, calls o = [sharder_GetShard path ↦ Err err] /\ value o = Err err)
  \/ (exists shard err,
        calls o = [sharder_GetShard path ↦ Ok shard;
                   router_IsLocalMasterShard shard ↦ Err err]
        /\ value o = Err err)
  \/ (exists shard err,
        calls o = [sharder_GetShard path ↦ Ok shard;
                   router_IsLocalMasterShard shard ↦ Ok true;
                   driver_PutFile path shard (bytes_NewReader (pf_Value req)) ↦ err]
        /\ value o = match err with
                     | Some err => Err err
                     | None => Ok PutFileResponse_empty
                     end)
  \/ (exists shard err,
        calls o = [sharder_GetShard path ↦ Ok shard;
                   router_IsLocalMasterShard shard ↦ Ok false;
                   router_GetAPIClient shard ↦ Err err]
        /\ value o = Err err)
  \/ (exists shard client r,
        calls o = [sharder_GetShard path ↦ Ok shard;
                   router_IsLocalMasterShard shard ↦ Ok false;
                   router_GetAPIClient shard ↦ Ok client;
                   apiClient_PutFile client ctx req ↦ r]
        /\ value o = r).
Proof.
  unfold PutFile. straight_line; eauto 10.
Qed.

(** The full list of calls of [GetFile], case by case. *)
Lemma GetFile_calls {W : Type} (h : handler W) (w : W) (req : GetFileRequest)
    (srv : Api_GetFileServer) :
  let o := run h (GetFile req srv) w in
  let path := gf_Path req in
  (exists err, calls o = [sharder_GetShard path ↦ Err err] /\ value o = Some err)
  \/ (exists shard err,
        calls o = [sharder_GetShard path ↦ Ok shard;
                   router_IsLocalMasterShard shard ↦ Err err]
        /\ value o = Some err)
  \/ (exists shard err,
        calls o = [sharder_GetShard path ↦ Ok shard;
                   router_IsLocalMasterShard shard ↦ Ok true;
                   driver_GetFile path shard ↦ Err err]
        /\ value o = Some err)
  \/ (exists shard rc copyErr closeErr,
        calls o = [sharder_GetShard path ↦ Ok shard;
                   router_IsLocalMasterShard shard ↦ Ok true;
                   driver_GetFile path shard ↦ Ok rc;
                   protoutil_WriteToStreamingBytesServer rc srv ↦ copyErr;
                   readCloser_Close rc ↦ closeErr]
        /\ value o = match copyErr with
                     | Some err => Some err
                     | None => closeErr
                     end)
  \/ (exists shard err,
        calls o = [sharder_GetShard path ↦ Ok shard;
                   router_IsLocalMasterShard shard ↦ Ok false;
                   router_GetAPIClient shard ↦ Err err]
        /\ value o = Some err)
  \/ (exists shard client err,
        calls o = [sharder_GetShard path ↦ Ok shard;
                   router_IsLocalMasterShard shard ↦ Ok false;
                   router_GetAPIClient shard ↦ Ok client;
                   apiClient_GetFile client Background req ↦ Err err]
        /\ value o = Some err)
  \/ (exists shard client stream relayErr,
        calls o = [sharder_GetShard path ↦ Ok shard;
                   router_IsLocalMasterShard shard ↦ Ok false;
                   router_GetAPIClient shard ↦ Ok client;
                   apiClient_GetFile client Background req ↦ Ok stream;
                   protoutil_RelayFromStreamingBytesClient stream srv ↦ relayErr]
        /\ value o = relayErr).
Proof.
  unfold GetFile. straight_line; eauto 15.
Qed.

(** Read [single_path] off a list of calls that is known in full: name
    the answer of the sharder, then that of the router, then, on the
    remote side, the client. *)
Ltac routed :=
  (split; [| by auto]);
  eexists; (split; [reflexivity |]); try reflexivity;
  eexists; (split; [reflexivity |]); cbn beta iota;
  try (split; [by eauto | by auto]);
  (split; [reflexivity |]);
  eexists; (split; [reflexivity |]); cbn beta iota; by eauto.

(** C1. [GetFile] and [PutFile] first ask the sharder for the shard of the
    path of the request.  When this node is the local master of the shard
    they call the driver once and no other node; when it is not, they ask
    the router for the client of the shard and call the same operation,
    with the same request, once on it, and nothing local.  The driver and
    another node are never both called for one request. *)
Theorem single_path_routing {W : Type} (h : handler W) (w : W) :
  (forall ctx req,
      single_path (pf_Path req) (calls (run h (PutFile ctx req) w))
        (fun shard => driver_PutFile (pf_Path req) shard
                        (bytes_NewReader (pf_Value req)))
        (fun client => apiClient_PutFile client ctx req))
  /\ (forall req srv,
        single_path (gf_Path req) (calls (run h (GetFile req srv) w))
          (fun shard => driver_GetFile (gf_Path req) shard)
          (fun client => apiClient_GetFile client Background req)).
Proof.
  split.
  - intros ctx req.
    destruct (PutFile_calls h w ctx req)
      as [(e & -> & _) | [(s & e & -> & _) | [(s & e & -> & _)
         | [(s & e & -> & _) | (s & c & r & -> & _)]]]];
      routed.
  - intros req srv.
    destruct (GetFile_calls h w req srv)
      as [(e & -> & _) | [(s & e & -> & _) | [(s & e & -> & _)
         | [(s & rc & e1 & e2 & -> & _) | [(s & e & -> & _)
         | [(s & c & e & -> & _) | (s & c & st & e & -> & _)]]]]]];
      routed.
Qed.

(** C6. When the sharder has no shard for the path of a [GetFile] or
    [PutFile] request, the operation returns the error of the sharder as
    it is.  The call to the sharder is its only call: the router and the
    driver are not called, and the storage is as it was. *)
Theorem unmappable_path_fails_first {W S : Type} (h : handler W)
    (store : W -> S) (w w1 : W) (path : Path) (err : error)
    (Hstore : only_driver_writes h store)
    (Hshard : h _ (sharder_GetShard path) w = (Err err, w1)) :
  (forall srv,
      let o := run h (GetFile {| gf_Path := path |} srv) w in
      value o = Some err
      /\ calls o = [sharder_GetShard path ↦ Err err]
      /\ store (state o) = store w)
  /\ (forall ctx payload,
        let o := run h (PutFile ctx {| pf_Path := path; pf_Value := payload |}) w in
        value o = Err err
        /\ calls o = [sharder_GetShard path ↦ Err err]
        /\ store (state o) = store w).
Proof.
  assert (Hkept : store w1 = store w).
  { specialize (Hstore _ (sharder_GetShard path) w).
    rewrite Hshard in Hstore. apply Hstore. discriminate. }
  split; [intros srv | intros ctx payload]; cbv zeta;
    [unfold GetFile | unfold PutFile]; straight_line;
    repeat split; exact Hkept.
Qed.

Lemma unmappable_path_fails_first_witness :
  (let o := run (fake four_shards) (GetFile {| gf_Path := "" |} (GetFileServerOf 0)) [] in
   value o = Some "empty path"%string
   /\ calls o = [sharder_GetShard "" ↦ Err "empty path"]
   /\ state o = [])
  /\ (let o := run (fake four_shards)
                 (PutFile Background {| pf_Path := ""; pf_Value := ["a"%byte] |}) [] in
      value o = Err "empty path"
      /\ calls o = [sharder_GetShard "" ↦ Err "empty path"]
      /\ state o = []).
Proof.
  destruct (unmappable_path_fails_first (fake four_shards) (fun w => w) [] []
              "" "empty path" (fake_only_driver_writes four_shards) eq_refl)
    as [Hget Hput].
  split; [apply Hget | apply Hput].
Defined.

(** C8. In a local [GetFile] whose driver call has returned a stream, the
    stream is closed once, after the copy to the caller, whether the copy
    has failed or not.  The operation returns the error of the copy when
    there is one, and the error of [Close] otherwise. *)
Theorem local_read_closes_stream {W : Type} (h : handler W) (w w1 w2 w3 : W)
    (path : Path) (shard : Z) (rc : ReadCloser) (srv : Api_GetFileServer)
    (Hshard : h _ (sharder_GetShard path) w = (Ok shard, w1))
    (Hmaster : h _ (router_IsLocalMasterShard shard) w1 = (Ok true, w2))
    (Hstream : h _ (driver_GetFile path shard) w2 = (Ok rc, w3)) :
  let o := run h (GetFile {| gf_Path := path |} srv) w in
  exists copyErr closeErr : option error,
    calls o = [sharder_GetShard path ↦ Ok shard;
               router_IsLocalMasterShard shard ↦ Ok true;
               driver_GetFile path shard ↦ Ok rc;
               protoutil_WriteToStreamingBytesServer rc srv ↦ copyErr;
               readCloser_Close rc ↦ closeErr]
    /\ (copyErr = None -> value o = closeErr)
    /\ (forall err, copyErr = Some err -> value o = Some err).
Proof.
  unfold GetFile, mbind, prog_bind, defer, trigger; simpl.
  rewrite Hshard; simpl. rewrite Hmaster; simpl. rewrite Hstream; simpl.
  destruct (h _ (protoutil_WriteToStreamingBytesServer rc srv) w3)
    as [copyErr w4]; simpl.
  destruct (h _ (readCloser_Close rc) w4) as [closeErr w5]; simpl.
  exists copyErr, closeErr. split; [reflexivity |].
  split.
  - intros ->. destruct closeErr; reflexivity.
  - intros err ->. destruct closeErr; reflexivity.
Qed.

Lemma local_read_closes_stream_witness :
  let o := run (fake (four_shards_with ascending (fun _ => None)
                        (fun _ => None) (Ok PutFileResponse_empty)
                        (Some "broken pipe") (Some "close failed")))
             (GetFile {| gf_Path := "c.txt" |} (GetFileServerOf 0)) [] in
  exists copyErr closeErr : option error,
    calls o = [sharder_GetShard "c.txt" ↦ Ok 2;
               router_IsLocalMasterShard 2 ↦ Ok true;
               driver_GetFile "c.txt" 2 ↦ Ok (ReadCloserOf 2);
               protoutil_WriteToStreamingBytesServer (ReadCloserOf 2)
                 (GetFileServerOf 0) ↦ copyErr;
               readCloser_Close (ReadCloserOf 2) ↦ closeErr]
    /\ (copyErr = None -> value o = closeErr)
    /\ (forall err, copyErr = Some err -> value o = Some err).
Proof.
  apply (local_read_closes_stream _ [] [] [] []); reflexivity.
Defined.

(** C10. [ListFiles], [GetParent], [GetChildren], [Branch], [Commit],
    [GetRepositoryInfo] and [GetCommitInfo] return the empty response and
    no error for every request, call no collaborator and leave the state
    as it is. *)
Theorem stubs_answer_empty {W : Type} (h : handler W) (w : W) (ctx : Context)
    {A B C D E F G : Type} (a : A) (b : B) (c : C) (d : D) (e : E) (f : F) (g : G) :
  run h (ListFiles ctx a) w = Outcome (Ok ListFilesResponse_empty) [] w
  /\ run h (GetParent ctx b) w = Outcome (Ok GetParentResponse_empty) [] w
  /\ run h (GetChildren ctx c) w = Outcome (Ok GetChildrenResponse_empty) [] w
  /\ run h (Branch ctx d) w = Outcome (Ok BranchResponse_empty) [] w
  /\ run h (Commit ctx e) w = Outcome (Ok CommitResponse_empty) [] w
  /\ run h (GetRepositoryInfo ctx f) w =
     Outcome (Ok GetRepositoryInfoResponse_empty) [] w
  /\ run h (GetCommitInfo ctx g) w = Outcome (Ok GetCommitInfoResponse_empty) [] w.
Proof. repeat split. Qed.

(** C4, as the code has it.  [PullDiff] and [PushDiff] return no error
    (and [PushDiff] the empty response) for every request, without a call
    to any collaborator: the sharder and the router are not asked, the
    driver is not called and nothing is sent to another node. *)
Theorem diffs_answer_empty {W : Type} (h : handler W) (w : W) (ctx : Context)
    {A B C : Type} (pull : A) (srv : B) (push : C) :
  run h (PullDiff pull srv) w = Outcome None [] w
  /\ run h (PushDiff ctx push) w = Outcome (Ok PushDiffResponse_empty) [] w.
Proof. split; reflexivity. Qed.

(** C4 fails as stated.  On the four-shard cluster a diff for shard 2,
    which this node is master of, reaches no driver, and a diff for shard
    3, which another node owns, reaches no other node. *)
Lemma diffs_not_routed :
  let pushed := run (fake four_shards) (PushDiff Background 2) [] in
  let pulled := run (fake four_shards) (PullDiff 3 (GetFileServerOf 0)) [] in
  calls_to TheDriver (calls pushed) = []
  /\ calls_to RemoteClient (calls pushed) = []
  /\ calls_to TheDriver (calls pulled) = []
  /\ calls_to RemoteClient (calls pulled) = []
  /\ calls_to TheSharder (calls pulled) = []
  /\ calls_to TheRouter (calls pulled) = [].
Proof. repeat split. Qed.

(** ** Loops *)


Lemma init_of_driver (c : call) (x : Repository * Z * option error) :
  init_of c = Some x -> collaborator_of c = TheDriver.
Proof. destruct c as [X e a]; destruct e; simpl; congruence. Qed.

Lemma range_of_runtime (c : call) (ks : list Z) :
  range_of c = Some ks -> collaborator_of c = GoRuntime.
Proof. destruct c as [X e a]; destruct e; simpl; congruence. Qed.

Lemma inits_cons (c : call) (tr : list call) :
  inits (c :: tr) =
  match init_of c with
  | Some x => x :: inits tr
  | None => inits tr
  end.
Proof. reflexivity. Qed.

Lemma ranges_cons (c : call) (tr : list call) :
  ranges (c :: tr) =
  match range_of c with
  | Some x => x :: ranges tr
  | None => ranges tr
  end.
Proof. reflexivity. Qed.

Lemma only_queries_inits (tr : list call) : only_queries tr -> inits tr = [].
Proof.
  induction 1 as [| c tr Hc _ IH]; [reflexivity |].
  rewrite inits_cons, IH.
  destruct (init_of c) eqn:E; [| reflexivity].
  apply init_of_driver in E. destruct Hc; congruence.
Qed.

Lemma only_queries_ranges (tr : list call) : only_queries tr -> ranges tr = [].
Proof.
  induction 1 as [| c tr Hc _ IH]; [reflexivity |].
  rewrite ranges_cons, IH.
  destruct (range_of c) eqn:E; [| reflexivity].
  apply range_of_runtime in E. destruct Hc; congruence.
Qed.

Lemma only_queries_driver (tr : list call) : only_queries tr -> calls_to TheDriver tr = [].
Proof.
  induction 1 as [| c tr Hc _ IH]; [reflexivity |].
  unfold calls_to in *. rewrite filter_cons, IH.
  destruct (decide (collaborator_of c = TheDriver)) as [E |]; [| reflexivity].
  destruct Hc; congruence.
Qed.

Lemma getShards_loop_S (p : Z -> prog (result bool)) (iters : nat) (i : Z)
    (m : gmap Z bool) :
  getShards_loop p (S iters) i m =
  p i ≫= fun r : result bool =>
    match r with
    | Err err => mret (Err err)
    | Ok ok => getShards_loop p iters (i + 1) (if ok then <[i:=true]> m else m)
    end.
Proof. reflexivity. Qed.

Lemma for_each_cons (k : Z) (ks : list Z) (body : Z -> prog (option error)) :
  for_each (k :: ks) body =
  body k ≫= fun err =>
    match err with
    | Some err => mret (Some err)
    | None => for_each ks body
    end.
Proof. reflexivity. Qed.

Section RoleQuery.
Context {W : Type} (h : handler W).
(** [q] is one of the two role questions of the router. *)
Variable q : Z -> event (result bool).
Hypothesis q_router : forall s a, collaborator_of (q s ↦ a) = TheRouter.
Hypothesis q_error : forall s a, error_of_call (q s ↦ a) = result_error a.

Lemma getShards_loop_queries (iters : nat) (i : Z) (m : gmap Z bool) (w : W) :
  let o := run h (getShards_loop (fun s => trigger (q s)) iters i m) w in
  only_queries (calls o) /\ first_error (calls o) = result_error (value o).
Proof.
  revert i m w. induction iters as [| iters IH]; intros i m w.
  - split; [constructor | reflexivity].
  - rewrite getShards_loop_S, run_bind, run_trigger.
    cbn [value calls state app first_error].
    destruct (h _ (q i) w) as [[ok | err] w1] eqn:E; cbn [fst snd].
    + destruct (IH (i + 1) (if ok then <[i:=true]> m else m) w1) as [Hq He].
      split.
      * constructor; [right; apply q_router | exact Hq].
      * rewrite q_error. exact He.
    + split.
      * constructor; [right; apply q_router | constructor].
      * rewrite q_error. reflexivity.
Qed.

Lemma getShards_queries (w : W) :
  let o := run h (getShards (fun s => trigger (q s))) w in
  only_queries (calls o) /\ first_error (calls o) = result_error (value o).
Proof.
  unfold getShards. rewrite run_bind, run_trigger. simpl.
  destruct (getShards_loop_queries
              (Z.to_nat (h _ sharder_NumShards w).1) 0 ∅
              (h _ sharder_NumShards w).2) as [Hq He].
  split; [constructor; [left; reflexivity | exact Hq] | exact He].
Qed.
End RoleQuery.

Lemma getMasterShards_queries {W : Type} (h : handler W) (w : W) :
  let o := run h getMasterShards w in
  only_queries (calls o) /\ first_error (calls o) = result_error (value o).
Proof. apply getShards_queries; reflexivity. Qed.

Lemma getSlaveShards_queries {W : Type} (h : handler W) (w : W) :
  let o := run h getSlaveShards w in
  only_queries (calls o) /\ first_error (calls o) = result_error (value o).
Proof. apply getShards_queries; reflexivity. Qed.


Lemma for_each_init_calls {W : Type} (h : handler W) (repo : Repository)
    (ks : list Z) (w : W) :
  let o := run h (for_each ks (init_all repo)) w in
  match value o with
  | None => calls o = applied repo <$> ks
  | Some err =>
      exists pre s post,
        ks = pre ++ s :: post
        /\ calls o = (applied repo <$> pre) ++ [driver_InitRepository repo s ↦ Some err]
  end.
Proof.
  revert w. induction ks as [| k ks IH]; intros w; [reflexivity |].
  rewrite for_each_cons, run_bind.
  change (init_all repo k) with (trigger (driver_InitRepository repo k)).
  rewrite run_trigger. simpl.
  destruct (h _ (driver_InitRepository repo k) w) as [[err |] w1]; simpl.
  - exists [], k, ks. split; reflexivity.
  - specialize (IH w1). cbv zeta in IH.
    destruct (value (run h (for_each ks (init_all repo)) w1)) as [err |].
    + destruct IH as (pre & s & post & -> & ->).
      exists (k :: pre), s, post. split; reflexivity.
    + rewrite IH. reflexivity.
Qed.

Lemma for_range_init_calls {W : Type} (h : handler W) (repo : Repository)
    (m : gmap Z bool) (w : W) :
  let o := run h (for_range m (init_all repo)) w in
  let order := (h _ (range_map m) w).1 in
  match value o with
  | None => calls o = (range_map m ↦ order) :: (applied repo <$> order)
  | Some err =>
      exists pre s post,
        order = pre ++ s :: post
        /\ calls o = (range_map m ↦ order) :: (applied repo <$> pre)
                     ++ [driver_InitRepository repo s ↦ Some err]
  end.
Proof.
  unfold for_range. rewrite run_bind, run_trigger. simpl.
  pose proof (for_each_init_calls h repo (h _ (range_map m) w).1
                (h _ (range_map m) w).2) as H. cbv zeta in H.
  destruct (value (run h (for_each _ (init_all repo)) _)) as [err |].
  - destruct H as (pre & s & post & Hks & ->). eauto.
  - rewrite H. reflexivity.
Qed.

Lemma applied_inits (repo : Repository) (ks : list Z) :
  inits (applied repo <$> ks) = (fun s => (repo, s, None)) <$> ks.
Proof.
  induction ks as [| k ks IH]; [reflexivity |].
  rewrite !fmap_cons, inits_cons. simpl. by rewrite IH.
Qed.

Lemma applied_ranges (repo : Repository) (ks : list Z) : ranges (applied repo <$> ks) = [].
Proof. induction ks as [| k ks IH]; [reflexivity | exact IH]. Qed.

Lemma applied_driver (repo : Repository) (ks : list Z) :
  calls_to TheDriver (applied repo <$> ks) = applied repo <$> ks.
Proof.
  induction ks as [| k ks IH]; [reflexivity |].
  unfold calls_to in *. rewrite fmap_cons, filter_cons_True by reflexivity.
  by rewrite IH.
Qed.

Lemma applied_no_error (repo : Repository) (ks : list Z) :
  first_error (applied repo <$> ks) = None.
Proof. induction ks as [| k ks IH]; [reflexivity | exact IH]. Qed.

(** [InitRepository] is its four steps, one after the other; each of the
    first three ends the call when it fails. *)
Lemma InitRepository_steps {W : Type} (h : handler W) (w : W) (ctx : Context)
    (req : InitRepositoryRequest) :
  let repo := ir_Repository req in
  let o := run h (InitRepository ctx req) w in
  let o1 := run h getMasterShards w in
  match value o1 with
  | Err err => o = Outcome (Err err) (calls o1) (state o1)
  | Ok masters =>
      let o2 := run h (for_range masters (init_all repo)) (state o1) in
      match value o2 with
      | Some err => o = Outcome (Err err) (calls o1 ++ calls o2) (state o2)
      | None =>
          let o3 := run h getSlaveShards (state o2) in
          match value o3 with
          | Err err =>
              o = Outcome (Err err) (calls o1 ++ calls o2 ++ calls o3) (state o3)
          | Ok slaves =>
              let o4 := run h (for_range slaves (init_all repo)) (state o3) in
              o = Outcome
                    match value o4 with
                    | Some err => Err err
                    | None => Ok InitRepositoryResponse_empty
                    end
                    (calls o1 ++ calls o2 ++ calls o3 ++ calls o4) (state o4)
          end
      end
  end.
Proof.
  cbv zeta. unfold InitRepository. rewrite run_bind.
  fold (init_all (ir_Repository req)).
  set (o1 := run h getMasterShards w).
  destruct (value o1) as [masters | err].
  2: { rewrite run_ret; cbn [value calls state]. rewrite app_nil_r.
       subst o1. by destruct (run h getMasterShards w). }
  rewrite run_bind.
  set (o2 := run h (for_range masters _) (state o1)).
  destruct (value o2) as [err |]; cbn [value calls state].
  { by rewrite run_ret, app_nil_r. }
  rewrite run_bind.
  set (o3 := run h getSlaveShards (state o2)).
  destruct (value o3) as [slaves | err]; cbn [value calls state].
  2: { by rewrite run_ret, app_nil_r. }
  rewrite run_bind.
  set (o4 := run h (for_range slaves _) (state o3)).
  destruct (value o4) as [err |]; cbn [value calls state];
    by rewrite run_ret, app_nil_r.
Qed.

Lemma calls_to_cons_other (who : collaborator) (c : call) (tr : list call) :
  collaborator_of c <> who -> calls_to who (c :: tr) = calls_to who tr.
Proof. intros H. unfold calls_to. by rewrite filter_cons_False. Qed.

(** What one walk over a shard map leaves in the list of calls. *)
Lemma for_range_init_facts {W : Type} (h : handler W) (repo : Repository)
    (m : gmap Z bool) (w : W) :
  let o := run h (for_range m (init_all repo)) w in
  let order := (h _ (range_map m) w).1 in
  ranges (calls o) = [order]
  /\ length (calls_to TheDriver (calls o)) = length (inits (calls o))
  /\ first_error (calls o) = value o
  /\ match value o with
     | None => inits (calls o) = (fun s => (repo, s, None)) <$> order
     | Some err =>
         exists pre s post,
           order = pre ++ s :: post
           /\ inits (calls o) =
              ((fun s => (repo, s, None)) <$> pre) ++ [(repo, s, Some err)]
           /\ last (calls o) = Some (driver_InitRepository repo s ↦ Some err)
     end.
Proof.
  cbv zeta. pose proof (for_range_init_calls h repo m w) as H. cbv zeta in H.
  destruct (value (run h (for_range m (init_all repo)) w)) as [err |].
  - destruct H as (pre & s & post & Horder & ->).
    rewrite ranges_cons, inits_cons. cbn [range_of init_of].
    rewrite ranges_app, inits_app, applied_ranges, applied_inits.
    rewrite calls_to_cons_other by discriminate.
    rewrite calls_to_app, applied_driver.
    cbn [first_error error_of_call]. rewrite first_error_app, applied_no_error.
    repeat split.
    + rewrite !length_app, !length_fmap. reflexivity.
    + exists pre, s, post. repeat split; [exact Horder |].
      rewrite app_comm_cons. apply last_snoc.
  - rewrite H, ranges_cons, inits_cons. cbn [range_of init_of].
    rewrite applied_ranges, applied_inits.
    rewrite calls_to_cons_other by discriminate.
    rewrite applied_driver.
    cbn [first_error error_of_call]. rewrite applied_no_error.
    repeat split. by rewrite !length_fmap.
Qed.

(** The error that [InitRepository] returns is the error of its first
    call that failed. *)
Lemma InitRepository_first_error {W : Type} (h : handler W) (w : W)
    (ctx : Context) (req : InitRepositoryRequest) :
  let o := run h (InitRepository ctx req) w in
  result_error (value o) = first_error (calls o).
Proof.
  cbv zeta. pose proof (InitRepository_steps h w ctx req) as H. cbv zeta in H.
  destruct (getMasterShards_queries h w) as [_ E1]. cbv zeta in E1.
  destruct (value (run h getMasterShards w)) as [masters | err].
  2: { rewrite H. cbn [value calls]. by rewrite E1. }
  destruct (for_range_init_facts h (ir_Repository req) masters
              (state (run h getMasterShards w))) as (_ & _ & E2 & _).
  cbv zeta in E2.
  destruct (value (run h (for_range masters _) _)) as [err |].
  { rewrite H. cbn [value calls]. by rewrite first_error_app, E1, E2. }
  destruct (getSlaveShards_queries h
              (state (run h (for_range masters (init_all (ir_Repository req)))
                        (state (run h getMasterShards w))))) as [_ E3].
  cbv zeta in E3.
  destruct (value (run h getSlaveShards _)) as [slaves | err].
  2: { rewrite H. cbn [value calls].
       by rewrite !first_error_app, E1, E2, E3. }
  rewrite H. cbn [value calls].
  match goal with
  | |- context [run h (for_range slaves ?b) ?s] =>
      destruct (for_range_init_facts h (ir_Repository req) slaves s)
        as (_ & _ & E4 & _)
  end.
  cbv zeta in E4.
  rewrite !first_error_app, E1, E2, E3, E4.
  by destruct (value (run h (for_range slaves _) _)).
Qed.

(** C7, as the code has it.  Every operation returns the error of the
    first call that failed, as that call gave it, and returns no error
    when no call failed: a failure is never turned into a success, and
    nothing about the shard or the role is added to the error. *)
Theorem errors_returned_unwrapped {W : Type} (h : handler W) (w : W) :
  (forall ctx req,
      let o := run h (InitRepository ctx req) w in
      result_error (value o) = first_error (calls o))
  /\ (forall req srv,
        let o := run h (GetFile req srv) w in
        value o = first_error (calls o))
  /\ (forall ctx req,
        let o := run h (PutFile ctx req) w in
        result_error (value o) = first_error (calls o))
  /\ (forall (A B : Type) ctx (a : A) (b : B),
        let stub {R : Type} (m : prog (result R)) :=
          result_error (value (run h m w)) = first_error (calls (run h m w)) in
        stub (ListFiles ctx a) /\ stub (GetParent ctx a)
        /\ stub (GetChildren ctx a) /\ stub (Branch ctx a)
        /\ stub (Commit ctx a) /\ stub (PushDiff ctx a)
        /\ stub (GetRepositoryInfo ctx a) /\ stub (GetCommitInfo ctx a)
        /\ value (run h (PullDiff a b) w) =
           first_error (calls (run h (PullDiff a b) w))).
Proof.
  split; [| split; [| split]].
  - intros ctx req. apply InitRepository_first_error.
  - intros req srv. unfold GetFile. straight_line; reflexivity.
  - intros ctx req. unfold PutFile. straight_line; reflexivity.
  - intros A B ctx a b. repeat split.
Qed.

(** C7 fails as stated.  A write to shard 2, of which this node is the
    master, on a full disk, and a write to shard 3, which another node
    owns and whose disk is full too, fail with the same error: the
    error of the collaborator as it is, which names no shard and no
    role. *)
Lemma errors_carry_no_routing_context :
  let local := run (fake (four_shards_full descending [2]))
                 (PutFile Background (put_request "c.txt")) [] in
  let remote := run (fake (four_shards_full descending [2]))
                  (PutFile Background (put_request "a/b.txt")) [] in
  calls local = [sharder_GetShard "c.txt" ↦ Ok 2;
                 router_IsLocalMasterShard 2 ↦ Ok true;
                 driver_PutFile "c.txt" 2
                   (bytes_NewReader ["a"; "b"; "c"]%byte) ↦ Some "disk full"]
  /\ value local = Err "disk full"
  /\ calls remote = [sharder_GetShard "a/b.txt" ↦ Ok 3;
                     router_IsLocalMasterShard 3 ↦ Ok false;
                     router_GetAPIClient 3 ↦ Ok (APIClientOf 3);
                     apiClient_PutFile (APIClientOf 3) Background
                       (put_request "a/b.txt") ↦ Err "disk full"]
  /\ value remote = Err "disk full".
Proof. repeat split. Qed.

(** ** Fan-out *)

(** C3 fails as stated.  The runtime may walk the master shards 0 and 2
    as 2, 0.  With a disk that is full on shard 0, shard 2 is
    initialised although shard 0, which comes before it in index order,
    fails.  With a disk that is full on shard 2 instead, the call returns
    the same error: the error does not tell the two shards apart. *)
Lemma fan_out_order_not_by_index :
  let o := run (fake (four_shards_full descending [0]))
             (InitRepository Background repo_request) [] in
  let o' := run (fake (four_shards_full descending [2]))
              (InitRepository Background repo_request) [] in
  go_range (fake (four_shards_full descending [0]))
  /\ inits (calls o) = [("repo"%string, 2, None); ("repo"%string, 0, Some "disk full"%string)]
  /\ value o = Err "disk full"
  /\ inits (calls o') = [("repo"%string, 2, Some "disk full"%string)]
  /\ value o' = Err "disk full".
Proof.
  split; [apply fake_go_range, descending_perm |].
  repeat split.
Qed.

(** ** Shard sets *)

Section Snapshot.
Context {W : Type} (h : handler W).
(** [p] is a role predicate that answers [f i] for shard [i], whatever
    the state. *)
Variable p : Z -> prog (result bool).
Variable f : Z -> result bool.
Hypothesis p_answers : forall i w, value (run h (p i) w) = f i.

Lemma getShards_loop_set (iters : nat) (i : Z) (m : gmap Z bool) (w : W) :
  (forall j, i <= j < i + Z.of_nat iters -> exists b, f j = Ok b) ->
  exists m',
    value (run h (getShards_loop p iters i m) w) = Ok m'
    /\ forall j,
         m' !! j =
         if decide (i <= j < i + Z.of_nat iters /\ f j = Ok true)
         then Some true else m !! j.
Proof.
  revert i m w. induction iters as [| iters IH]; intros i m w Hok.
  - exists m. split; [reflexivity |]. intros j.
    case_decide; [lia | reflexivity].
  - rewrite getShards_loop_S, run_bind, p_answers. cbn [value].
    destruct (Hok i ltac:(lia)) as [b Hb]. rewrite Hb.
    destruct (IH (i + 1) (if b then <[i:=true]> m else m)
                (state (run h (p i) w))) as (m' & Hm' & Hlookup).
    { intros j Hj. apply Hok. lia. }
    exists m'. split; [exact Hm' |]. intros j. rewrite Hlookup.
    destruct (decide (j = i)) as [-> | Hne].
    + rewrite decide_False by lia.
      destruct b.
      * rewrite lookup_insert_eq, decide_True; [reflexivity |].
        split; [lia | exact Hb].
      * rewrite decide_False; [reflexivity |].
        intros [_ Hf]. congruence.
    + assert ((if b then <[i:=true]> m else m) !! j = m !! j) as ->.
      { destruct b; [by rewrite lookup_insert_ne | reflexivity]. }
      rewrite Nat2Z.inj_succ.
      repeat case_decide; try reflexivity; exfalso;
        match goal with
        | Hyes : _ /\ f j = Ok true, Hno : ~ _ |- _ =>
            destruct Hyes as [Hj Hf]; apply Hno; split; [lia | exact Hf]
        end.
Qed.

Lemma getShards_loop_error (iters : nat) (i k : Z) (err : error)
    (m : gmap Z bool) (w : W) :
  i <= k < i + Z.of_nat iters ->
  f k = Err err ->
  (forall j, i <= j < k -> exists b, f j = Ok b) ->
  value (run h (getShards_loop p iters i m) w) = Err err.
Proof.
  revert i m w. induction iters as [| iters IH]; intros i m w Hk Herr Hok.
  - lia.
  - rewrite getShards_loop_S, run_bind, p_answers. cbn [value].
    destruct (decide (k = i)) as [-> | Hne].
    + rewrite Herr. reflexivity.
    + destruct (Hok i ltac:(lia)) as [b Hb]. rewrite Hb.
      apply IH; [lia | exact Herr |]. intros j Hj. apply Hok. lia.
Qed.

Lemma getShards_set (n : Z) (w : W) :
  (h _ sharder_NumShards w).1 = n ->
  (forall j, 0 <= j < n -> exists b, f j = Ok b) ->
  exists m,
    value (run h (getShards p) w) = Ok m
    /\ forall j,
         m !! j = if decide (0 <= j < n /\ f j = Ok true) then Some true else None.
Proof.
  intros Hn Hok. unfold getShards. rewrite run_bind, run_trigger.
  cbn [value state]. rewrite Hn.
  destruct (getShards_loop_set (Z.to_nat n) 0 ∅ (h _ sharder_NumShards w).2)
    as (m & Hm & Hlookup).
  { intros j Hj. apply Hok. lia. }
  exists m. split; [exact Hm |]. intros j. rewrite Hlookup, lookup_empty.
  repeat case_decide; try reflexivity; exfalso;
    match goal with
    | Hyes : _ /\ f j = Ok true, Hno : ~ _ |- _ =>
        destruct Hyes as [Hj Hf]; apply Hno; split; [lia | exact Hf]
    end.
Qed.

Lemma getShards_error (n k : Z) (err : error) (w : W) :
  (h _ sharder_NumShards w).1 = n ->
  0 <= k < n ->
  f k = Err err ->
  (forall j, 0 <= j < k -> exists b, f j = Ok b) ->
  value (run h (getShards p) w) = Err err.
Proof.
  intros Hn Hk Herr Hok. unfold getShards. rewrite run_bind, run_trigger.
  cbn [value state]. rewrite Hn.
  apply (getShards_loop_error _ _ k); [lia | exact Herr | exact Hok].
Qed.
End Snapshot.

(** C9.  Let the sharder report [n] shards and let the role predicate [p]
    answer [f i] for shard [i].  When [p] fails for no shard below [n],
    [getShards p] returns the map whose keys are the shards [i] with
    [0 <= i < n] for which [p] answers true, each with value true.  When
    [p] fails, [getShards p] returns the error of the first shard for
    which it does.  And when the query for the master shards fails,
    [InitRepository] returns its error after the calls of that query
    alone: the driver is not called and the storage is as it was. *)
Theorem getShards_selects_by_role {W : Type} (h : handler W) (w : W)
    (p : Z -> prog (result bool)) (f : Z -> result bool) (n : Z)
    (Hn : (h _ sharder_NumShards w).1 = n)
    (Hp : forall i w', value (run h (p i) w') = f i) :
  ((forall j, 0 <= j < n -> exists b, f j = Ok b) ->
   exists m,
     value (run h (getShards p) w) = Ok m
     /\ forall j,
          m !! j = if decide (0 <= j < n /\ f j = Ok true) then Some true else None)
  /\ (forall k err,
        0 <= k < n -> f k = Err err ->
        (forall j, 0 <= j < k -> exists b, f j = Ok b) ->
        value (run h (getShards p) w) = Err err)
  /\ (forall ctx req err,
        value (run h getMasterShards w) = Err err ->
        let o := run h (InitRepository ctx req) w in
        value o = Err err
        /\ calls o = calls (run h getMasterShards w)
        /\ calls_to TheDriver (calls o) = []
        /\ forall (S : Type) (store : W -> S),
             only_driver_writes h store -> store (state o) = store w).
Proof.
  split; [| split].
  - intros Hok. by apply getShards_set.
  - intros k err Hk Herr Hok. by apply (getShards_error h p f Hp n k).
  - intros ctx req err Herr. cbv zeta.
    pose proof (InitRepository_steps h w ctx req) as H. cbv zeta in H.
    rewrite Herr in H.
    assert (Hnone : calls_to TheDriver (calls (run h (InitRepository ctx req) w)) = []).
    { rewrite H. apply only_queries_driver, getMasterShards_queries. }
    repeat split.
    + by rewrite H.
    + by rewrite H.
    + exact Hnone.
    + intros S store Hstore. by apply store_kept_without_driver.
Qed.

(** The keys of the map that [getShards] builds, as a list. *)
Lemma role_keys (m : gmap Z bool) (n : Z) (role : Z -> bool) :
  (forall j,
      m !! j =
      if decide (0 <= j < n /\ Ok (role j) = Ok true) then Some true else None) ->
  keys m ≡ₚ shards_where n role.
Proof.
  intros Hm. apply NoDup_Permutation.
  - apply NoDup_fst_map_to_list.
  - apply NoDup_filter, NoDup_seqZ.
  - intros j. unfold keys, shards_where.
    rewrite list_elem_of_filter, elem_of_seqZ, list_elem_of_fmap.
    split.
    + intros ([j' b] & -> & Hin). apply elem_of_map_to_list in Hin.
      simpl. rewrite Hm in Hin. case_decide as Hj; [| discriminate].
      destruct Hj as [Hj Hrole]. split; [congruence | lia].
    + intros [Hrole Hj]. exists (j, true). split; [reflexivity |].
      apply elem_of_map_to_list. rewrite Hm, decide_True; [reflexivity |].
      split; [lia | congruence].
Qed.

(** One walk over a shard map, seen through the applications it makes. *)
Lemma for_range_tried {W : Type} (h : handler W) (repo : Repository)
    (m : gmap Z bool) (w : W) :
  let o := run h (for_range m (init_all repo)) w in
  let order := (h _ (range_map m) w).1 in
  exists tried,
    (inits (calls o)).*1 = (fun s => (repo, s)) <$> tried
    /\ tried `prefix_of` order
    /\ (value o = None <-> Forall (fun x => x.2 = None) (inits (calls o)))
    /\ (value o = None -> tried = order).
Proof.
  cbv zeta.
  destruct (for_range_init_facts h repo m w) as (_ & _ & _ & I). cbv zeta in I.
  destruct (value (run h (for_range m (init_all repo)) w)) as [err |].
  - destruct I as (pre & s & post & Horder & -> & _).
    exists (pre ++ [s]). rewrite !fmap_app, <- !list_fmap_compose.
    repeat split; try discriminate.
    + rewrite Horder. exists post. by rewrite <- app_assoc.
    + intros Hall. apply Forall_app in Hall as [_ Hall].
      rewrite Forall_singleton in Hall. discriminate Hall.
  - rewrite I. exists (h _ (range_map m) w).1.
    rewrite <- !list_fmap_compose.
    repeat split; try reflexivity.
    intros _. apply Forall_fmap, Forall_forall. reflexivity.
Qed.

Section FanOut.
Context {W : Type} (h : handler W).
(** The sharder reports [n] shards, the router answers the role
    questions without error, by [isMaster] and [isSlave], and the
    runtime walks maps as Go does. *)
Variables (n : Z) (isMaster isSlave : Z -> bool).
Hypothesis Hn : forall w, (h _ sharder_NumShards w).1 = n.
Hypothesis Hmaster :
  forall i w, (h _ (router_IsLocalMasterShard i) w).1 = Ok (isMaster i).
Hypothesis Hslave :
  forall i w, (h _ (router_IsLocalSlaveShard i) w).1 = Ok (isSlave i).
Hypothesis Hrange : go_range h.

Lemma getMasterShards_role (w : W) :
  exists masters,
    value (run h getMasterShards w) = Ok masters
    /\ keys masters ≡ₚ shards_where n isMaster.
Proof.
  destruct (getShards_set h (fun s => trigger (router_IsLocalMasterShard s))
              (fun s => Ok (isMaster s))
              (fun i w' => eq_trans (f_equal value (run_trigger h _ w'))
                             (Hmaster i w'))
              n w (Hn w)) as (m & Hm & Hlookup); [eauto |].
  exists m. split; [exact Hm | by apply role_keys].
Qed.

Lemma getSlaveShards_role (w : W) :
  exists slaves,
    value (run h getSlaveShards w) = Ok slaves
    /\ keys slaves ≡ₚ shards_where n isSlave.
Proof.
  destruct (getShards_set h (fun s => trigger (router_IsLocalSlaveShard s))
              (fun s => Ok (isSlave s))
              (fun i w' => eq_trans (f_equal value (run_trigger h _ w'))
                             (Hslave i w'))
              n w (Hn w)) as (m & Hm & Hlookup); [eauto |].
  exists m. split; [exact Hm | by apply role_keys].
Qed.

Lemma InitRepository_fan_out (w : W) (ctx : Context)
    (req : InitRepositoryRequest) :
  let repo := ir_Repository req in
  let o := run h (InitRepository ctx req) w in
  exists ms ss tried,
    ms ≡ₚ shards_where n isMaster
    /\ ss ≡ₚ shards_where n isSlave
    /\ (inits (calls o)).*1 = (fun s => (repo, s)) <$> tried
    /\ tried `prefix_of` ms ++ ss
    /\ (Forall (fun x => x.2 = None) (inits (calls o)) -> tried = ms ++ ss)
    /\ (value o = Ok InitRepositoryResponse_empty <->
        Forall (fun x => x.2 = None) (inits (calls o)))
    /\ length (calls_to TheDriver (calls o)) = length (inits (calls o)).
Proof.
  cbv zeta. pose proof (InitRepository_steps h w ctx req) as H. cbv zeta in H.
  destruct (getMasterShards_role w) as (masters & Hm & Pm).
  destruct (getMasterShards_queries h w) as [Q1 _]. cbv zeta in Q1.
  rewrite Hm in H.
  set (o1 := run h getMasterShards w) in *.
  destruct (for_range_tried h (ir_Repository req) masters (state o1))
    as (t2 & T2 & P2 & V2 & C2).
  destruct (for_range_init_facts h (ir_Repository req) masters (state o1))
    as (_ & D2 & _ & _).
  cbv zeta in D2.
  pose proof (Hrange masters (state o1)) as Pr2. rewrite Pm in Pr2.
  set (o2 := run h (for_range masters _) (state o1)) in *.
  destruct (value o2) as [err2 |] eqn:E2.
  { rewrite H. cbn [value calls].
    exists (h _ (range_map masters) (state o1)).1, (shards_where n isSlave), t2.
    rewrite inits_app, calls_to_app, (only_queries_inits _ Q1),
      (only_queries_driver _ Q1). cbn [app].
    split; [exact Pr2 |]. split; [reflexivity |]. split; [exact T2 |].
    split; [by apply prefix_app_r |].
    split; [intros Hall; apply V2 in Hall; discriminate |].
    split; [| exact D2].
    split; [discriminate | intros Hall; apply V2 in Hall; discriminate]. }
  destruct (getSlaveShards_role (state o2)) as (slaves & Hs & Ps).
  destruct (getSlaveShards_queries h (state o2)) as [Q3 _]. cbv zeta in Q3.
  rewrite Hs in H.
  set (o3 := run h getSlaveShards (state o2)) in *.
  destruct (for_range_tried h (ir_Repository req) slaves (state o3))
    as (t4 & T4 & P4 & V4 & C4).
  destruct (for_range_init_facts h (ir_Repository req) slaves (state o3))
    as (_ & D4 & _ & _).
  cbv zeta in D4.
  pose proof (Hrange slaves (state o3)) as Pr4. rewrite Ps in Pr4.
  set (o4 := run h (for_range slaves _) (state o3)) in *.
  rewrite H. cbn [value calls].
  exists (h _ (range_map masters) (state o1)).1,
    (h _ (range_map slaves) (state o3)).1, (t2 ++ t4).
  rewrite !inits_app, !calls_to_app, (only_queries_inits _ Q1),
    (only_queries_inits _ Q3), (only_queries_driver _ Q1),
    (only_queries_driver _ Q3). cbn [app].
  rewrite (C2 eq_refl) in *.
  split; [exact Pr2 |]. split; [exact Pr4 |].
  split; [by rewrite !fmap_app, T2, T4 |].
  split; [by apply prefix_app |].
  split.
  { intros Hall. apply Forall_app in Hall as [_ Hall].
    apply V4 in Hall. by rewrite (C4 Hall). }
  split; [| by rewrite !length_app, D2, D4].
  split.
  - intros Hv. apply Forall_app. split; [by apply V2 |].
    apply V4. by destruct (value o4).
  - intros Hall. apply Forall_app in Hall as [_ Hall].
    apply V4 in Hall. by rewrite Hall.
Qed.
End FanOut.

Lemma shards_where_ext (n : Z) (p q : Z -> bool) :
  (forall i, p i = q i) -> shards_where n p = shards_where n q.
Proof.
  intros Hpq. unfold shards_where. apply list_filter_iff.
  intros i. by rewrite Hpq.
Qed.

(** C2 fails as stated.  On the four-shard cluster with a disk that is
    full everywhere, the role questions are answered without error and
    the runtime walks the maps as Go does, yet the driver is called once,
    not four times: the master shard 2 and the slave shards 1 and 3 are
    never applied to. *)
Lemma fan_out_incomplete_after_failure :
  let o := run (fake (four_shards_full ascending [0; 1; 2; 3]))
             (InitRepository Background repo_request) [] in
  go_range (fake (four_shards_full ascending [0; 1; 2; 3]))
  /\ calls_to TheDriver (calls o) =
     [driver_InitRepository "repo" 0 ↦ Some "disk full"%string]
  /\ inits (calls o) = [("repo"%string, 0, Some "disk full"%string)]
  /\ value o = Err "disk full".
Proof.
  split; [apply fake_go_range, ascending_perm |].
  repeat split.
Qed.

Lemma getShards_selects_by_role_witness :
  (exists m,
      value (run (fake four_shards) getMasterShards []) = Ok m
      /\ forall j,
           m !! j =
           if decide (0 <= j < 4 /\ Ok (among [0; 2] j) = Ok true)
           then Some true else None)
  /\ value (run (fake router_down) getMasterShards []) = Err "router down"
  /\ (let o := run (fake router_down) (InitRepository Background repo_request) [] in
      value o = Err "router down"
      /\ calls o = calls (run (fake router_down) getMasterShards [])
      /\ calls_to TheDriver (calls o) = []
      /\ state o = []).
Proof.
  split.
  - apply (getShards_selects_by_role (fake four_shards) []
             (fun s => trigger (router_IsLocalMasterShard s))
             (fun s => Ok (among [0; 2] s)) 4 eq_refl (fun _ _ => eq_refl)).
    intros j _. eauto.
  - destruct (getShards_selects_by_role (fake router_down) []
                (fun s => trigger (router_IsLocalMasterShard s))
                (c_master router_down) 4 eq_refl (fun _ _ => eq_refl))
      as (_ & Herr & Hinit).
    split.
    + apply (Herr 1 "router down"%string); [lia | reflexivity |].
      intros j Hj. assert (j = 0) as -> by lia. by exists true.
    + destruct (Hinit Background repo_request "router down"%string eq_refl)
        as (Hvalue & Hcalls & Hnone & Hkept).
      split; [exact Hvalue |]. split; [exact Hcalls |].
      split; [exact Hnone |].
      apply (Hkept _ (fun w => w)), fake_only_driver_writes.
Defined.

(** ** Payload *)

(** C5, as the code has it.  [PutFile] gets the payload whole, as the byte
    slice [Value] of the request, and hands it on whole and as it is: to
    the driver as a reader that stands at the start of that very slice,
    or to the node that owns the shard inside the same request.  It makes
    at most one such write, and one when it succeeds. *)
Theorem put_payload_handed_on_whole {W : Type} (h : handler W) (w : W)
    (ctx : Context) (req : PutFileRequest) :
  let o := run h (PutFile ctx req) w in
  let handed := concat (slices_of <$> calls o) in
  (calls_to TheDriver (calls o) = []
   \/ exists shard err,
        calls_to TheDriver (calls o) =
        [driver_PutFile (pf_Path req) shard
           {| rd_s := pf_Value req; rd_i := 0; rd_prevRune := -1 |} ↦ err])
  /\ (calls_to RemoteClient (calls o) = []
      \/ exists client r,
           calls_to RemoteClient (calls o) = [apiClient_PutFile client ctx req ↦ r])
  /\ (handed = [] \/ handed = [pf_Value req])
  /\ (forall resp, value o = Ok resp -> handed = [pf_Value req]).
Proof.
  cbv zeta.
  destruct (PutFile_calls h w ctx req)
    as [(e & -> & ->) | [(s & e & -> & ->) | [(s & e & -> & ->)
       | [(s & e & -> & ->) | (s & c & r & -> & ->)]]]];
    (split; [first [by left | right; by eauto] |]);
    (split; [first [by left | right; by eauto] |]);
    (split; [first [by left | by right] |]);
    intros resp Hresp; first [discriminate Hresp | reflexivity].
Qed.

Lemma put_payload_handed_on_whole_witness :
  concat (slices_of <$> calls (run (fake four_shards)
                                 (PutFile Background (put_request "c.txt")) []))
  = [["a"; "b"; "c"]%byte].
Proof.
  destruct (put_payload_handed_on_whole (fake four_shards) [] Background
              (put_request "c.txt")) as (_ & _ & _ & Hok).
  apply (Hok PutFileResponse_empty). reflexivity.
Defined.

(** C5 fails as stated.  A write of the three bytes "abc" reaches the
    driver, for a local shard, as a reader over one slice that holds all
    of them, and the owner of a remote shard as one request that holds all
    of them: the payload is in one piece when the server has it. *)
Lemma put_payload_in_one_piece :
  let local := run (fake four_shards) (PutFile Background (put_request "c.txt")) [] in
  let remote := run (fake four_shards) (PutFile Background (put_request "a/b.txt")) [] in
  calls_to TheDriver (calls local) =
    [driver_PutFile "c.txt" 2
       {| rd_s := ["a"; "b"; "c"]%byte; rd_i := 0; rd_prevRune := -1 |} ↦ None]
  /\ concat (slices_of <$> calls local) = [["a"; "b"; "c"]%byte]
  /\ calls_to RemoteClient (calls remote) =
     [apiClient_PutFile (APIClientOf 3) Background
        {| pf_Path := "a/b.txt"; pf_Value := ["a"; "b"; "c"]%byte |}
      ↦ Ok PutFileResponse_empty]
  /\ concat (slices_of <$> calls remote) = [["a"; "b"; "c"]%byte].
Proof. repeat split. Qed.

(** ** Further properties of the server *)

Lemma asked_cons (r : role) (c : call) (tr : list call) :
  asked r (c :: tr) =
  match asked_of r c with
  | Some s => s :: asked r tr
  | None => asked r tr
  end.
Proof. reflexivity. Qed.

Lemma asked_app (r : role) (tr1 tr2 : list call) :
  asked r (tr1 ++ tr2) = asked r tr1 ++ asked r tr2.
Proof. apply omap_app. Qed.

Lemma asked_other_collaborator (r : role) (tr : list call) :
  Forall (fun c => collaborator_of c <> TheRouter) tr -> asked r tr = [].
Proof.
  induction 1 as [| c tr Hc _ IH]; [reflexivity |].
  rewrite asked_cons, IH.
  destruct c as [X e x]; destruct e, r; try reflexivity; by destruct Hc.
Qed.

(** The questions of one shard-set query: shard 0, then 1, and so on. *)
Lemma getShards_loop_asked {W : Type} (h : handler W) (master : bool)
    (iters : nat) (i : Z) (m : gmap Z bool) (w : W) :
  let q := if master then router_IsLocalMasterShard else router_IsLocalSlaveShard in
  let o := run h (getShards_loop (fun s => trigger (q s)) iters i m) w in
  exists k : nat,
    (k <= iters)%nat
    /\ asked (if master then Master else Slave) (calls o) = seqZ i (Z.of_nat k)
    /\ asked (if master then Slave else Master) (calls o) = []
    /\ length (calls o) = k
    /\ (forall m', value o = Ok m' -> k = iters)
    /\ (forall err, value o = Err err ->
        exists pre,
          calls o = pre ++ [q (i + Z.of_nat k - 1) ↦ Err err]
          /\ first_error pre = None).
Proof.
  cbv zeta. revert i m w. induction iters as [| iters IH]; intros i m w.
  - exists 0%nat. do 5 (split; [done |]). discriminate.
  - rewrite getShards_loop_S, run_bind, run_trigger. cbn [value calls state app].
    destruct (h _ _ w) as [[ok | err] w1] eqn:E; cbn [fst snd].
    + destruct (IH (i + 1) (if ok then <[i:=true]> m else m) w1)
        as (k & Hk & Hasked & Hother & Hlen & Hall & Hlast).
      exists (S k). rewrite !asked_cons, Hasked, Hother.
      split; [lia |].
      split.
      { rewrite (seqZ_cons i (Z.of_nat (S k))) by lia.
        replace (Z.pred (Z.of_nat (S k))) with (Z.of_nat k) by lia.
        by destruct master. }
      split; [by destruct master |].
      split; [simpl; by rewrite Hlen |].
      split; [intros m' Hm'; by rewrite (Hall m' Hm') |].
      intros err Herr. destruct (Hlast err Herr) as (pre & -> & Hpre).
      eexists (_ :: pre). split.
      * rewrite <- app_comm_cons. f_equal.
        replace (i + Z.of_nat (S k) - 1) with (i + 1 + Z.of_nat k - 1) by lia.
        reflexivity.
      * cbn [first_error]. by destruct master.
    + exists 1%nat. rewrite !asked_cons.
      split; [lia |]. split; [by destruct master |].
      split; [by destruct master |]. split; [reflexivity |].
      split; [discriminate |].
      intros err' [= <-]. exists []. split; [| reflexivity].
      replace (i + Z.of_nat 1 - 1) with i by lia. reflexivity.
Qed.

Lemma getShards_asked {W : Type} (h : handler W) (master : bool) (w : W) :
  let q := if master then router_IsLocalMasterShard else router_IsLocalSlaveShard in
  let o := run h (getShards (fun s => trigger (q s))) w in
  let n := (h _ sharder_NumShards w).1 in
  exists k : nat,
    (k <= Z.to_nat n)%nat
    /\ head (calls o) = Some (sharder_NumShards ↦ n)
    /\ asked (if master then Master else Slave) (calls o) = seqZ 0 (Z.of_nat k)
    /\ asked (if master then Slave else Master) (calls o) = []
    /\ length (calls o) = S k
    /\ (forall m, value o = Ok m -> k = Z.to_nat n)
    /\ (forall err, value o = Err err ->
        exists pre,
          calls o = pre ++ [q (Z.of_nat k - 1) ↦ Err err]
          /\ first_error pre = None).
Proof.
  cbv zeta. unfold getShards. rewrite run_bind, run_trigger.
  cbn [value calls state app].
  destruct (getShards_loop_asked h master (Z.to_nat (h _ sharder_NumShards w).1)
              0 ∅ (h _ sharder_NumShards w).2)
    as (k & Hk & Hasked & Hother & Hlen & Hall & Hlast).
  exists k. rewrite !asked_cons. cbn [asked_of].
  split; [exact Hk |]. split; [reflexivity |].
  split; [by destruct master |]. split; [by destruct master |].
  split; [simpl; by rewrite Hlen |]. split; [exact Hall |].
  intros err Herr. destruct (Hlast err Herr) as (pre & -> & Hpre).
  exists ((sharder_NumShards ↦ (h _ sharder_NumShards w).1) :: pre).
  split; [| exact Hpre].
  rewrite <- app_comm_cons. reflexivity.
Qed.

(** X1.  A shard-set query asks the sharder for the shard count once,
    first, and then asks the router about the shards 0, 1, 2, ... in
    this order, each one once and none at or above the shard count.  It
    stops at the first question that fails: that question is its last
    call, no question before it has failed, and its error is returned.
    It has asked about every shard below the count when it returns a
    set.  The query for one role asks nothing about the other role. *)
Theorem getShards_asks_in_index_order {W : Type} (h : handler W) (w : W) :
  let n := (h _ sharder_NumShards w).1 in
  (let o := run h getMasterShards w in
   exists k : nat,
     (k <= Z.to_nat n)%nat
     /\ head (calls o) = Some (sharder_NumShards ↦ n)
     /\ asked Master (calls o) = seqZ 0 (Z.of_nat k)
     /\ asked Slave (calls o) = []
     /\ length (calls o) = S k
     /\ first_error (calls o) = result_error (value o)
     /\ (forall m, value o = Ok m -> k = Z.to_nat n)
     /\ (forall err, value o = Err err ->
         exists pre,
           calls o = pre ++ [router_IsLocalMasterShard (Z.of_nat k - 1) ↦ Err err]
           /\ first_error pre = None))
  /\ (let o := run h getSlaveShards w in
      exists k : nat,
        (k <= Z.to_nat n)%nat
        /\ head (calls o) = Some (sharder_NumShards ↦ n)
        /\ asked Slave (calls o) = seqZ 0 (Z.of_nat k)
        /\ asked Master (calls o) = []
        /\ length (calls o) = S k
        /\ first_error (calls o) = result_error (value o)
        /\ (forall m, value o = Ok m -> k = Z.to_nat n)
        /\ (forall err, value o = Err err ->
            exists pre,
              calls o = pre ++ [router_IsLocalSlaveShard (Z.of_nat k - 1) ↦ Err err]
              /\ first_error pre = None)).
Proof.
  cbv zeta. split.
  - destruct (getShards_asked h true w) as (k & H1 & H2 & H3 & H4 & H5 & H6 & H7).
    exists k. repeat split; try assumption.
    apply getMasterShards_queries.
  - destruct (getShards_asked h false w) as (k & H1 & H2 & H3 & H4 & H5 & H6 & H7).
    exists k. repeat split; try assumption.
    apply getSlaveShards_queries.
Qed.

Lemma only_queries_asked_nothing_else (tr : list call) :
  Forall (fun c => collaborator_of c = TheDriver \/ collaborator_of c = GoRuntime) tr ->
  Forall (fun c => collaborator_of c <> TheRouter) tr.
Proof. intros H. eapply Forall_impl; [exact H |]. intros c [-> | ->]; discriminate. Qed.

(** The calls of one walk over a shard map go to the runtime and to the
    driver. *)
Lemma for_range_init_collaborators {W : Type} (h : handler W) (repo : Repository)
    (m : gmap Z bool) (w : W) :
  Forall (fun c => collaborator_of c <> TheRouter)
    (calls (run h (for_range m (init_all repo)) w)).
Proof.
  apply only_queries_asked_nothing_else.
  pose proof (for_range_init_calls h repo m w) as H. cbv zeta in H.
  destruct (value (run h (for_range m (init_all repo)) w)) as [err |].
  - destruct H as (pre & s & post & _ & ->).
    constructor; [by right |]. apply Forall_app. split.
    + apply Forall_fmap, Forall_forall. intros; by left.
    + constructor; [by left | constructor].
  - rewrite H. constructor; [by right |].
    apply Forall_fmap, Forall_forall. intros; by left.
Qed.

(** X2.  [InitRepository] works in two phases, one after the other.  The
    first holds every question about master roles and no question about
    slave roles; the second holds every question about slave roles and no
    question about master roles.  The second phase starts only when no
    call of the first has failed and the walk over the master shards is
    complete, every shard of the walk having been initialised: a node
    whose master work fails never asks the router for its slave roles. *)
Theorem InitRepository_master_phase_first {W : Type} (h : handler W) (w : W)
    (ctx : Context) (req : InitRepositoryRequest) :
  let o := run h (InitRepository ctx req) w in
  exists tr1 tr2,
    calls o = tr1 ++ tr2
    /\ asked Slave tr1 = []
    /\ asked Master tr2 = []
    /\ (length (ranges tr1) <= 1)%nat
    /\ (length (ranges tr2) <= 1)%nat
    /\ (tr2 <> [] ->
        first_error tr1 = None
        /\ exists order,
             ranges tr1 = [order]
             /\ inits tr1 = (fun s => (ir_Repository req, s, None)) <$> order).
Proof.
  cbv zeta. pose proof (InitRepository_steps h w ctx req) as H. cbv zeta in H.
  destruct (getShards_asked h true w) as (k1 & _ & _ & _ & A1 & _).
  cbv zeta in A1. fold getMasterShards in A1.
  destruct (getMasterShards_queries h w) as [Q1 E1]. cbv zeta in Q1, E1.
  set (o1 := run h getMasterShards w) in *.
  destruct (value o1) as [masters | err1].
  2: { rewrite H. exists (calls o1), []. cbn [calls].
       rewrite app_nil_r, (only_queries_ranges _ Q1).
       repeat split; try done; try (simpl; lia); try exact F1; try exact F2. }
  destruct (for_range_init_facts h (ir_Repository req) masters (state o1))
    as (R2 & _ & E2 & I2).
  cbv zeta in R2, E2, I2.
  pose proof (for_range_init_collaborators h (ir_Repository req) masters (state o1)) as C2.
  set (o2 := run h (for_range masters _) (state o1)) in *.
  assert (Hphase1 : asked Slave (calls o1 ++ calls o2) = []
                    /\ ranges (calls o1 ++ calls o2) =
                       [(h _ (range_map masters) (state o1)).1]).
  { rewrite asked_app, ranges_app, A1, (asked_other_collaborator _ _ C2),
      (only_queries_ranges _ Q1), R2. by split. }
  destruct Hphase1 as [S12 R12].
  destruct (value o2) as [err2 |].
  { rewrite H. exists (calls o1 ++ calls o2), []. cbn [calls].
    rewrite app_nil_r, S12, R12. repeat split; try done; try (simpl; lia); try exact F1; try exact F2. }
  destruct (getShards_asked h false (state o2)) as (k3 & _ & _ & _ & A3 & _).
  cbv zeta in A3. fold getSlaveShards in A3.
  destruct (getSlaveShards_queries h (state o2)) as [Q3 _]. cbv zeta in Q3.
  set (o3 := run h getSlaveShards (state o2)) in *.
  assert (Hfirst : first_error (calls o1 ++ calls o2) = None
                   /\ exists order,
                        ranges (calls o1 ++ calls o2) = [order]
                        /\ inits (calls o1 ++ calls o2) =
                           (fun s => (ir_Repository req, s, None)) <$> order).
  { split; [by rewrite first_error_app, E1, E2 |].
    eexists. split; [exact R12 |].
    by rewrite inits_app, (only_queries_inits _ Q1), I2. }
  rewrite R12 in Hfirst. destruct Hfirst as [F1 F2].
  destruct (value o3) as [slaves | err3].
  2: { rewrite H. exists (calls o1 ++ calls o2), (calls o3). cbn [calls].
       rewrite <- app_assoc, S12, R12, A3, (only_queries_ranges _ Q3).
       repeat split; try done; try (simpl; lia); try exact F1; try exact F2. }
  destruct (for_range_init_facts h (ir_Repository req) slaves (state o3))
    as (R4 & _ & _ & _).
  cbv zeta in R4.
  pose proof (for_range_init_collaborators h (ir_Repository req) slaves (state o3)) as C4.
  set (o4 := run h (for_range slaves _) (state o3)) in *.
  rewrite H. exists (calls o1 ++ calls o2), (calls o3 ++ calls o4). cbn [calls].
  rewrite <- !app_assoc, S12, R12, asked_app, ranges_app, A3,
    (asked_other_collaborator _ _ C4), (only_queries_ranges _ Q3), R4.
  repeat split; try done; try (simpl; lia); try exact F1; try exact F2.
Qed.

Lemma said_yes_cons (r : role) (c : call) (tr : list call) :
  said_yes r (c :: tr) =
  match yes_of r c with
  | Some s => s :: said_yes r tr
  | None => said_yes r tr
  end.
Proof. reflexivity. Qed.

Lemma said_yes_app (r : role) (tr1 tr2 : list call) :
  said_yes r (tr1 ++ tr2) = said_yes r tr1 ++ said_yes r tr2.
Proof. apply omap_app. Qed.

(** The router has said yes only where it has been asked. *)
Lemma said_yes_not_asked (r : role) (tr : list call) :
  asked r tr = [] -> said_yes r tr = [].
Proof.
  induction tr as [| c tr IH]; [reflexivity |].
  rewrite asked_cons, said_yes_cons.
  destruct c as [X e x]; destruct e, r; cbn [asked_of yes_of];
    try discriminate; exact IH.
Qed.

Lemma walks_cons (c : call) (tr : list call) :
  walks (c :: tr) =
  match walk_of c with
  | Some x => x :: walks tr
  | None => walks tr
  end.
Proof. reflexivity. Qed.

Lemma walks_app (tr1 tr2 : list call) : walks (tr1 ++ tr2) = walks tr1 ++ walks tr2.
Proof. apply omap_app. Qed.

Lemma walks_other_collaborator (tr : list call) :
  Forall (fun c => collaborator_of c <> GoRuntime) tr -> walks tr = [].
Proof.
  induction 1 as [| c tr Hc _ IH]; [reflexivity |].
  rewrite walks_cons, IH.
  destruct c as [X e x]; destruct e; try reflexivity; by destruct Hc.
Qed.

Lemma only_queries_walks (tr : list call) : only_queries tr -> walks tr = [].
Proof.
  intros H. apply walks_other_collaborator.
  eapply Forall_impl; [exact H |]. intros c [-> | ->]; discriminate.
Qed.

Lemma applied_walks (repo : Repository) (ks : list Z) : walks (applied repo <$> ks) = [].
Proof.
  apply walks_other_collaborator, Forall_fmap, Forall_forall.
  intros; discriminate.
Qed.

(** One walk over a shard map asks the runtime once, for this map. *)
Lemma for_range_init_walks {W : Type} (h : handler W) (repo : Repository)
    (m : gmap Z bool) (w : W) :
  walks (calls (run h (for_range m (init_all repo)) w)) =
  [(m, (h _ (range_map m) w).1)].
Proof.
  pose proof (for_range_init_calls h repo m w) as H. cbv zeta in H.
  destruct (value (run h (for_range m (init_all repo)) w)) as [err |].
  - destruct H as (pre & s & post & _ & ->).
    rewrite walks_cons. cbn [walk_of].
    by rewrite walks_app, applied_walks.
  - rewrite H, walks_cons. cbn [walk_of]. by rewrite applied_walks.
Qed.

Lemma elem_of_keys (m : gmap Z bool) (j : Z) : j ∈ keys m <-> is_Some (m !! j).
Proof.
  unfold keys. rewrite list_elem_of_fmap. split.
  - intros ([j' b] & -> & Hin). apply elem_of_map_to_list in Hin. by exists b.
  - intros [b Hb]. exists (j, b). split; [reflexivity |].
    by apply elem_of_map_to_list.
Qed.

(** The map a shard-set query builds holds, besides what it held at the
    start, the shards for which the router has said yes. *)
Lemma getShards_loop_said_yes {W : Type} (h : handler W) (master : bool)
    (iters : nat) (i : Z) (m m' : gmap Z bool) (w : W) :
  let q := if master then router_IsLocalMasterShard else router_IsLocalSlaveShard in
  let o := run h (getShards_loop (fun s => trigger (q s)) iters i m) w in
  value o = Ok m' ->
  forall j,
    is_Some (m' !! j) <->
    is_Some (m !! j) \/ j ∈ said_yes (if master then Master else Slave) (calls o).
Proof.
  cbv zeta. revert i m w. induction iters as [| iters IH]; intros i m w Hm' j.
  - injection Hm' as <-. cbn [getShards_loop]. rewrite run_ret. cbn [calls].
    change (said_yes _ []) with (@nil Z). rewrite elem_of_nil. tauto.
  - revert Hm'. rewrite getShards_loop_S, run_bind, run_trigger.
    cbn [value calls state app].
    destruct (h _ _ w) as [[ok | err] w1] eqn:E; cbn [fst snd]; [| discriminate].
    intros Hm'. rewrite (IH _ _ _ Hm' j), said_yes_cons.
    destruct ok.
    + replace (yes_of (if master then Master else Slave)
                 ((if master then router_IsLocalMasterShard
                   else router_IsLocalSlaveShard) i ↦ Ok true))
        with (Some i) by (by destruct master).
      rewrite lookup_insert_is_Some, elem_of_cons.
      destruct (decide (i = j)) as [-> | Hne]; [tauto |].
      split; [intros [[? | [_ ?]] | ?] | intros [? | [? | ?]]];
        auto; congruence.
    + replace (yes_of (if master then Master else Slave)
                 ((if master then router_IsLocalMasterShard
                   else router_IsLocalSlaveShard) i ↦ Ok false))
        with (@None Z) by (by destruct master).
      reflexivity.
Qed.

Lemma getShards_said_yes {W : Type} (h : handler W) (master : bool)
    (m : gmap Z bool) (w : W) :
  let q := if master then router_IsLocalMasterShard else router_IsLocalSlaveShard in
  let o := run h (getShards (fun s => trigger (q s))) w in
  value o = Ok m ->
  forall j, j ∈ keys m <-> j ∈ said_yes (if master then Master else Slave) (calls o).
Proof.
  cbv zeta. unfold getShards. rewrite run_bind, run_trigger.
  cbn [value calls state app]. intros Hm j.
  rewrite elem_of_keys, (getShards_loop_said_yes h master _ _ _ _ _ Hm j).
  rewrite said_yes_cons, lookup_empty.
  replace (yes_of (if master then Master else Slave)
             (sharder_NumShards ↦ (h _ sharder_NumShards w).1))
    with (@None Z) by (by destruct master).
  split; [intros [[? [=]] | ?]; assumption | by right].
Qed.

(** The shape of a fan-out in which an application fails.  The walk over
    the shards the router has called master shards comes first; the walk
    over the shards it has called slave shards exists only when the
    first walk has been completed. *)
Lemma InitRepository_failure_shape {W : Type} (h : handler W) (w : W)
    (ctx : Context) (req : InitRepositoryRequest) :
  let repo := ir_Repository req in
  let o := run h (InitRepository ctx req) w in
  Exists (fun x => x.2 <> None) (inits (calls o)) ->
  exists done shard err,
    inits (calls o) =
      ((fun s => (repo, s, None)) <$> done) ++ [(repo, shard, Some err)]
    /\ (done ++ [shard]) `prefix_of` concat (ranges (calls o))
    /\ last (calls o) = Some (driver_InitRepository repo shard ↦ Some err)
    /\ value o = Err err
    /\ length (calls_to TheDriver (calls o)) = length (inits (calls o))
    /\ exists masters order1,
         (forall j, j ∈ keys masters <-> j ∈ said_yes Master (calls o))
         /\ (walks (calls o) = [(masters, order1)]
             /\ (done ++ [shard]) `prefix_of` order1
             /\ asked Slave (calls o) = []
             \/ exists slaves order2 pre,
                  walks (calls o) = [(masters, order1); (slaves, order2)]
                  /\ (forall j, j ∈ keys slaves <-> j ∈ said_yes Slave (calls o))
                  /\ done = order1 ++ pre
                  /\ (pre ++ [shard]) `prefix_of` order2).
Proof.
  cbv zeta. pose proof (InitRepository_steps h w ctx req) as H. cbv zeta in H.
  assert (Hnone : forall l : list Z,
             ~ Exists (fun x : Repository * Z * option error => x.2 <> None)
                 ((fun s => (ir_Repository req, s, None)) <$> l)).
  { intros l. induction l as [| s l IH]; intros Hex.
    - by apply Exists_nil in Hex.
    - rewrite fmap_cons in Hex. apply Exists_cons in Hex.
      destruct Hex as [Hs | Hl]; [exact (Hs eq_refl) | exact (IH Hl)]. }
  destruct (getMasterShards_queries h w) as [Q1 _]. cbv zeta in Q1.
  destruct (getShards_asked h true w) as (k1 & _ & _ & _ & A1 & _).
  cbv zeta in A1. fold getMasterShards in A1.
  pose proof (getShards_said_yes h true) as Y1. cbv zeta in Y1.
  fold getMasterShards in Y1. specialize (fun m => Y1 m w).
  set (o1 := run h getMasterShards w) in *.
  destruct (value o1) as [masters | err1] eqn:V1.
  2: { rewrite H. cbn [calls]. rewrite (only_queries_inits _ Q1).
       intros Hex. by apply Exists_nil in Hex. }
  specialize (Y1 masters V1).
  destruct (for_range_init_facts h (ir_Repository req) masters (state o1))
    as (R2 & D2 & _ & I2).
  cbv zeta in R2, D2, I2.
  pose proof (for_range_init_walks h (ir_Repository req) masters (state o1)) as W2.
  pose proof (for_range_init_collaborators h (ir_Repository req) masters (state o1)) as C2.
  pose proof (asked_other_collaborator Master _ C2) as AM2.
  pose proof (asked_other_collaborator Slave _ C2) as AS2.
  pose proof (said_yes_not_asked _ _ AM2) as YM2.
  pose proof (said_yes_not_asked _ _ AS2) as YS2.
  pose proof (said_yes_not_asked _ _ A1) as YS1.
  set (o2 := run h (for_range masters _) (state o1)) in *.
  destruct (value o2) as [err2 |].
  { destruct I2 as (pre & s & post & Horder & I2 & L2).
    rewrite H. cbn [calls value]. intros _. exists pre, s, err2.
    rewrite inits_app, ranges_app, calls_to_app, walks_app, said_yes_app,
      asked_app, (only_queries_inits _ Q1),
      (only_queries_ranges _ Q1), (only_queries_driver _ Q1),
      (only_queries_walks _ Q1), R2, I2, W2, YM2, A1, AS2.
    cbn [app concat]. rewrite !app_nil_r, Horder.
    assert (Hpre : (pre ++ [s]) `prefix_of` pre ++ s :: post).
    { exists post. by rewrite <- app_assoc. }
    split; [reflexivity |]. split; [exact Hpre |].
    split; [rewrite last_app, L2; reflexivity |].
    split; [reflexivity |].
    split; [rewrite D2, I2; reflexivity |].
    exists masters, (pre ++ s :: post).
    split; [exact Y1 |]. left.
    split; [reflexivity |]. split; [exact Hpre | reflexivity]. }
  destruct (getSlaveShards_queries h (state o2)) as [Q3 _]. cbv zeta in Q3.
  destruct (getShards_asked h false (state o2)) as (k3 & _ & _ & _ & A3 & _).
  cbv zeta in A3. fold getSlaveShards in A3.
  pose proof (getShards_said_yes h false) as Y3. cbv zeta in Y3.
  fold getSlaveShards in Y3. specialize (fun m => Y3 m (state o2)).
  pose proof (said_yes_not_asked _ _ A3) as YM3.
  set (o3 := run h getSlaveShards (state o2)) in *.
  destruct (value o3) as [slaves | err3] eqn:V3.
  2: { rewrite H. cbn [calls].
       rewrite !inits_app, (only_queries_inits _ Q1), (only_queries_inits _ Q3), I2.
       cbn [app]. rewrite app_nil_r. intros Hex. by apply Hnone in Hex. }
  specialize (Y3 slaves V3).
  destruct (for_range_init_facts h (ir_Repository req) slaves (state o3))
    as (R4 & D4 & _ & I4).
  cbv zeta in R4, D4, I4.
  pose proof (for_range_init_walks h (ir_Repository req) slaves (state o3)) as W4.
  pose proof (for_range_init_collaborators h (ir_Repository req) slaves (state o3)) as C4.
  pose proof (said_yes_not_asked _ _ (asked_other_collaborator Master _ C4)) as YM4.
  pose proof (said_yes_not_asked _ _ (asked_other_collaborator Slave _ C4)) as YS4.
  set (o4 := run h (for_range slaves _) (state o3)) in *.
  rewrite H. cbn [calls value].
  rewrite !inits_app, !ranges_app, !calls_to_app, !walks_app, !said_yes_app,
    (only_queries_inits _ Q1), (only_queries_inits _ Q3),
    (only_queries_ranges _ Q1), (only_queries_ranges _ Q3),
    (only_queries_driver _ Q1), (only_queries_driver _ Q3),
    (only_queries_walks _ Q1), (only_queries_walks _ Q3),
    R2, R4, I2, W2, W4, YM2, YM3, YM4, YS1, YS2, YS4.
  cbn [app concat]. rewrite !app_nil_r.
  destruct (value o4) as [err4 |].
  - destruct I4 as (pre & s & post & Horder & I4 & L4).
    intros _. exists ((h _ (range_map masters) (state o1)).1 ++ pre), s, err4.
    rewrite I4, Horder, fmap_app, <- !app_assoc.
    assert (Hpre : (pre ++ [s]) `prefix_of` pre ++ s :: post).
    { exists post. by rewrite <- app_assoc. }
    split; [reflexivity |]. split; [by apply prefix_app |].
    split; [rewrite !last_app, L4; reflexivity |].
    split; [reflexivity |].
    split; [rewrite !length_app, D2, D4, I2, I4, !length_app; reflexivity |].
    exists masters, (h _ (range_map masters) (state o1)).1.
    split; [exact Y1 |]. right.
    exists slaves, (pre ++ s :: post), pre.
    split; [reflexivity |]. split; [exact Y3 |].
    split; [reflexivity | exact Hpre].
  - rewrite I4, <- fmap_app. intros Hex. by apply Hnone in Hex.
Qed.

(** C3, as the code has it.  When an application of
    [driver.InitRepository] fails during [InitRepository], it is the last
    call of the operation: no further shard is tried and nothing is
    undone, the driver having been called for these applications only.
    All applications before it have succeeded.  The shards are tried in
    the order in which the runtime walks the shard maps, masters first:
    the first map walked holds the shards the router has called master
    shards.  Either this is the only walk, the shards tried are a prefix
    of it and the router has not been asked for slave roles; or the
    shards tried are all of it, followed by a prefix of a second walk,
    over the map of the shards the router has called slave shards.  The
    error returned is the error the driver gave for the failing shard, as
    it is. *)
Theorem fan_out_stops_at_failure {W : Type} (h : handler W) (w : W)
    (ctx : Context) (req : InitRepositoryRequest) :
  let repo := ir_Repository req in
  let o := run h (InitRepository ctx req) w in
  Exists (fun x => x.2 <> None) (inits (calls o)) ->
  exists done shard err,
    inits (calls o) =
      ((fun s => (repo, s, None)) <$> done) ++ [(repo, shard, Some err)]
    /\ (done ++ [shard]) `prefix_of` concat (ranges (calls o))
    /\ last (calls o) = Some (driver_InitRepository repo shard ↦ Some err)
    /\ value o = Err err
    /\ length (calls_to TheDriver (calls o)) = length (inits (calls o))
    /\ exists masters order1,
         (forall j, j ∈ keys masters <-> j ∈ said_yes Master (calls o))
         /\ (walks (calls o) = [(masters, order1)]
             /\ (done ++ [shard]) `prefix_of` order1
             /\ asked Slave (calls o) = []
             \/ exists slaves order2 pre,
                  walks (calls o) = [(masters, order1); (slaves, order2)]
                  /\ (forall j, j ∈ keys slaves <-> j ∈ said_yes Slave (calls o))
                  /\ done = order1 ++ pre
                  /\ (pre ++ [shard]) `prefix_of` order2).
Proof. exact (InitRepository_failure_shape h w ctx req). Qed.

Lemma fan_out_stops_at_failure_witness :
  let o := run (fake (four_shards_full descending [0]))
             (InitRepository Background repo_request) [] in
  exists done shard err,
    inits (calls o) =
      ((fun s => ("repo"%string, s, None)) <$> done) ++ [("repo"%string, shard, Some err)]
    /\ (done ++ [shard]) `prefix_of` concat (ranges (calls o))
    /\ last (calls o) = Some (driver_InitRepository "repo" shard ↦ Some err)
    /\ value o = Err err
    /\ length (calls_to TheDriver (calls o)) = length (inits (calls o))
    /\ exists masters order1,
         (forall j, j ∈ keys masters <-> j ∈ said_yes Master (calls o))
         /\ (walks (calls o) = [(masters, order1)]
             /\ (done ++ [shard]) `prefix_of` order1
             /\ asked Slave (calls o) = []
             \/ exists slaves order2 pre,
                  walks (calls o) = [(masters, order1); (slaves, order2)]
                  /\ (forall j, j ∈ keys slaves <-> j ∈ said_yes Slave (calls o))
                  /\ done = order1 ++ pre
                  /\ (pre ++ [shard]) `prefix_of` order2).
Proof.
  apply (fan_out_stops_at_failure (fake (four_shards_full descending [0])) []
           Background repo_request).
  vm_compute. apply Exists_cons_tl, Exists_cons_hd. discriminate.
Defined.

(** C2, as the code has it.  Let the sharder report [n] shards and the
    router answer the role questions without error.  [InitRepository]
    applies [driver.InitRepository], with the repository of the request,
    to the shards of a list [ms ++ ss] in that order, up to and including
    the first application that fails: [ms] holds every shard this node is
    master of once and [ss] every shard it is slave of once, so no shard
    is applied to more than once for a role, no other shard is, and no
    slave shard is tried before all master shards are done.  The first
    application that fails ends the call: it is the last shard tried and
    the last call of the operation, every application before it has
    succeeded, and its error is returned.  When no application fails, all
    of [ms ++ ss] is applied.  The call succeeds if and only if no
    application has failed.  In particular, with four shards, masters 0
    and 2 and slaves 1 and 3, and no failure, the driver is called four
    times, for 0 and 2 first and for 1 and 3 then. *)
Theorem fan_out_masters_before_slaves {W : Type} (h : handler W) (w : W)
    (ctx : Context) (req : InitRepositoryRequest)
    (n : Z) (isMaster isSlave : Z -> bool)
    (Hn : forall w', (h _ sharder_NumShards w').1 = n)
    (Hmaster : forall i w', (h _ (router_IsLocalMasterShard i) w').1 = Ok (isMaster i))
    (Hslave : forall i w', (h _ (router_IsLocalSlaveShard i) w').1 = Ok (isSlave i))
    (Hrange : go_range h) :
  let repo := ir_Repository req in
  let o := run h (InitRepository ctx req) w in
  (exists ms ss tried,
      ms ≡ₚ shards_where n isMaster
      /\ ss ≡ₚ shards_where n isSlave
      /\ (inits (calls o)).*1 = (fun s => (repo, s)) <$> tried
      /\ tried `prefix_of` ms ++ ss
      /\ (Forall (fun x => x.2 = None) (inits (calls o)) -> tried = ms ++ ss)
      /\ (value o = Ok InitRepositoryResponse_empty <->
          Forall (fun x => x.2 = None) (inits (calls o)))
      /\ length (calls_to TheDriver (calls o)) = length (inits (calls o))
      /\ (Forall (fun x => x.2 = None) (inits (calls o))
          \/ exists done shard err,
               inits (calls o) =
                 ((fun s => (repo, s, None)) <$> done) ++ [(repo, shard, Some err)]
               /\ tried = done ++ [shard]
               /\ last (calls o) = Some (driver_InitRepository repo shard ↦ Some err)
               /\ value o = Err err))
  /\ (n = 4 ->
      (forall i, isMaster i = among [0; 2] i) ->
      (forall i, isSlave i = among [1; 3] i) ->
      Forall (fun x => x.2 = None) (inits (calls o)) ->
      exists ms ss,
        ms ≡ₚ [0; 2] /\ ss ≡ₚ [1; 3]
        /\ (inits (calls o)).*1 = (fun s => (repo, s)) <$> (ms ++ ss)
        /\ length (calls_to TheDriver (calls o)) = 4%nat
        /\ value o = Ok InitRepositoryResponse_empty).
Proof.
  cbv zeta.
  destruct (InitRepository_fan_out h n isMaster isSlave Hn Hmaster Hslave
              Hrange w ctx req)
    as (ms & ss & tried & Pm & Ps & T & P & C & V & D).
  split.
  { exists ms, ss, tried. do 7 (split; [assumption |]).
    destruct (decide (Forall (fun x : Repository * Z * option error => x.2 = None)
                        (inits (calls (run h (InitRepository ctx req) w)))))
      as [Hall | Hnot]; [by left | right].
    apply (not_Forall_Exists _) in Hnot.
    destruct (InitRepository_failure_shape h w ctx req Hnot)
      as (done & shard & err & I & _ & L & E & _).
    exists done, shard, err.
    split; [exact I |]. split; [| by split].
    rewrite I, fmap_app, <- list_fmap_compose in T.
    assert (Hinj : Inj (=) (=) (fun s : Z => (ir_Repository req, s))).
    { by intros s1 s2 [= ->]. }
    apply (inj (fmap (fun s : Z => (ir_Repository req, s)))).
    rewrite <- T, fmap_app. reflexivity. }
  intros -> HM HS Hall. exists ms, ss.
  rewrite (shards_where_ext 4 _ _ HM) in Pm.
  rewrite (shards_where_ext 4 _ _ HS) in Ps.
  change (shards_where 4 (among [0; 2])) with [0; 2] in Pm.
  change (shards_where 4 (among [1; 3])) with [1; 3] in Ps.
  rewrite <- (C Hall).
  split; [exact Pm |]. split; [exact Ps |]. split; [exact T |].
  split; [| by apply V].
  rewrite D, <- (length_fmap fst), T, length_fmap, (C Hall), length_app.
  by rewrite (Permutation_length Pm), (Permutation_length Ps).
Qed.

Lemma fan_out_masters_before_slaves_witness :
  let o := run (fake four_shards) (InitRepository Background repo_request) [] in
  exists ms ss,
    ms ≡ₚ [0; 2] /\ ss ≡ₚ [1; 3]
    /\ (inits (calls o)).*1 = (fun s => ("repo"%string, s)) <$> (ms ++ ss)
    /\ length (calls_to TheDriver (calls o)) = 4%nat
    /\ value o = Ok InitRepositoryResponse_empty.
Proof.
  apply (fan_out_masters_before_slaves (fake four_shards) [] Background
           repo_request 4 (among [0; 2]) (among [1; 3])).
  - reflexivity.
  - reflexivity.
  - reflexivity.
  - apply fake_go_range, ascending_perm.
  - reflexivity.
  - reflexivity.
  - reflexivity.
  - vm_compute. repeat constructor.
Defined.

(** The keys of the map a shard-set query builds are shard indices it
    has gone through, whatever the predicate answers. *)
Lemma getShards_loop_keys {W : Type} (h : handler W) (p : Z -> prog (result bool))
    (iters : nat) (i : Z) (m m' : gmap Z bool) (w : W) :
  value (run h (getShards_loop p iters i m) w) = Ok m' ->
  forall j, is_Some (m' !! j) -> is_Some (m !! j) \/ i <= j < i + Z.of_nat iters.
Proof.
  revert i m w. induction iters as [| iters IH]; intros i m w Hm' j Hj.
  - injection Hm' as <-. by left.
  - rewrite getShards_loop_S, run_bind in Hm'. cbn [value] in Hm'.
    destruct (value (run h (p i) w)) as [ok | err]; [| discriminate Hm'].
    destruct (IH _ _ _ Hm' j Hj) as [Hin | Hrange]; [| right; lia].
    destruct ok; [| by left].
    destruct (decide (j = i)) as [-> | Hne]; [right; lia |].
    left. by rewrite lookup_insert_ne in Hin.
Qed.

Lemma getShards_keys {W : Type} (h : handler W) (p : Z -> prog (result bool))
    (m : gmap Z bool) (w : W) :
  value (run h (getShards p) w) = Ok m ->
  forall j, j ∈ keys m -> 0 <= j < (h _ sharder_NumShards w).1.
Proof.
  unfold getShards. rewrite run_bind, run_trigger. cbn [value state].
  intros Hm j Hj.
  assert (is_Some (m !! j)) as Hsome.
  { unfold keys in Hj. apply list_elem_of_fmap in Hj as ([j' b] & -> & Hin).
    apply elem_of_map_to_list in Hin. by exists b. }
  destruct (getShards_loop_keys _ _ _ _ _ _ _ Hm j Hsome) as [Hin | Hrange].
  - rewrite lookup_empty in Hin. by destruct Hin.
  - lia.
Qed.

Lemma keys_below_count (m : gmap Z bool) (n : Z) :
  (forall j, j ∈ keys m -> 0 <= j < n) -> (length (keys m) <= Z.to_nat n)%nat.
Proof.
  intros Hkeys. rewrite <- (length_seqZ 0 n).
  apply submseteq_length, NoDup_submseteq; [apply NoDup_fst_map_to_list |].
  intros j Hj. apply elem_of_seqZ. specialize (Hkeys j Hj). lia.
Qed.

(** X3.  Whatever the router answers, and whether or not its answers
    fail or change from one question to the next: when the sharder
    reports [n] shards, [InitRepository] calls the driver for nothing but
    [InitRepository], with the repository of the request and a shard
    index in [0, n), and it does so at most twice [n] times. *)
Theorem InitRepository_shards_in_range {W : Type} (h : handler W) (w : W)
    (ctx : Context) (req : InitRepositoryRequest) (n : Z)
    (Hn : forall w', (h _ sharder_NumShards w').1 = n)
    (Hrange : go_range h) :
  let o := run h (InitRepository ctx req) w in
  Forall (fun x => x.1.1 = ir_Repository req /\ 0 <= x.1.2 < n) (inits (calls o))
  /\ (length (inits (calls o)) <= 2 * Z.to_nat n)%nat
  /\ length (calls_to TheDriver (calls o)) = length (inits (calls o)).
Proof.
  cbv zeta. pose proof (InitRepository_steps h w ctx req) as H. cbv zeta in H.
  assert (Hwalk : forall m w',
             (forall j, j ∈ keys m -> 0 <= j < n) ->
             let o := run h (for_range m (init_all (ir_Repository req))) w' in
             Forall (fun x => x.1.1 = ir_Repository req /\ 0 <= x.1.2 < n)
               (inits (calls o))
             /\ (length (inits (calls o)) <= Z.to_nat n)%nat
             /\ length (calls_to TheDriver (calls o)) = length (inits (calls o))).
  { intros m w' Hkeys. cbv zeta.
    destruct (for_range_tried h (ir_Repository req) m w')
      as (tried & T & P & _ & _).
    destruct (for_range_init_facts h (ir_Repository req) m w') as (_ & D & _ & _).
    cbv zeta in D. pose proof (Hrange m w') as Hperm.
    assert (Htried : forall s, s ∈ tried -> 0 <= s < n).
    { intros s Hs. apply Hkeys. rewrite <- Hperm.
      destruct P as [rest ->]. apply elem_of_app. by left. }
    split; [| split; [| exact D]].
    - apply Forall_forall. intros [[r s] e] Hin.
      assert ((r, s) ∈ (inits (calls (run h (for_range m (init_all (ir_Repository req))) w'))).*1) as Hrs.
      { apply list_elem_of_fmap. by exists (r, s, e). }
      rewrite T in Hrs. apply list_elem_of_fmap in Hrs as (s' & [= -> ->] & Hs').
      split; [reflexivity | by apply Htried].
    - rewrite <- (length_fmap fst), T, length_fmap.
      etrans; [apply (prefix_length _ _ P) |].
      rewrite (Permutation_length Hperm). by apply keys_below_count. }
  destruct (getMasterShards_queries h w) as [Q1 _]. cbv zeta in Q1.
  pose proof (fun m => getShards_keys h
                         (fun s => trigger (router_IsLocalMasterShard s)) m w) as K1.
  fold getMasterShards in K1.
  set (o1 := run h getMasterShards w) in *.
  destruct (value o1) as [masters | err1].
  2: { rewrite H. cbn [calls].
       rewrite (only_queries_inits _ Q1), (only_queries_driver _ Q1).
       repeat split; [constructor | simpl; lia]. }
  destruct (Hwalk masters (state o1)) as (F2 & L2 & D2).
  { intros j Hj. rewrite <- (Hn w). by apply (K1 masters). }
  cbv zeta in F2, L2, D2.
  set (o2 := run h (for_range masters _) (state o1)) in *.
  destruct (value o2) as [err2 |].
  { rewrite H. cbn [calls].
    rewrite inits_app, calls_to_app, (only_queries_inits _ Q1),
      (only_queries_driver _ Q1). cbn [app].
    split; [exact F2 |]. split; [lia | exact D2]. }
  destruct (getSlaveShards_queries h (state o2)) as [Q3 _]. cbv zeta in Q3.
  pose proof (fun m => getShards_keys h
                         (fun s => trigger (router_IsLocalSlaveShard s)) m (state o2)) as K3.
  fold getSlaveShards in K3.
  set (o3 := run h getSlaveShards (state o2)) in *.
  destruct (value o3) as [slaves | err3].
  2: { rewrite H. cbn [calls].
       rewrite !inits_app, !calls_to_app, (only_queries_inits _ Q1),
         (only_queries_inits _ Q3), (only_queries_driver _ Q1),
         (only_queries_driver _ Q3). cbn [app]. rewrite !app_nil_r.
       split; [exact F2 |]. split; [lia | exact D2]. }
  destruct (Hwalk slaves (state o3)) as (F4 & L4 & D4).
  { intros j Hj. rewrite <- (Hn (state o2)). by apply (K3 slaves). }
  cbv zeta in F4, L4, D4.
  rewrite H. cbn [calls].
  rewrite !inits_app, !calls_to_app, (only_queries_inits _ Q1),
    (only_queries_inits _ Q3), (only_queries_driver _ Q1),
    (only_queries_driver _ Q3). cbn [app].
  split; [by apply Forall_app |].
  rewrite !length_app. split; lia.
Qed.

Lemma InitRepository_shards_in_range_witness :
  let o := run (fake (four_shards_full descending [1]))
             (InitRepository Background repo_request) [] in
  Forall (fun x => x.1.1 = "repo"%string /\ 0 <= x.1.2 < 4) (inits (calls o))
  /\ (length (inits (calls o)) <= 2 * Z.to_nat 4)%nat
  /\ length (calls_to TheDriver (calls o)) = length (inits (calls o)).
Proof.
  apply (InitRepository_shards_in_range (fake (four_shards_full descending [1]))
           [] Background repo_request 4).
  - reflexivity.
  - apply fake_go_range, descending_perm.
Defined.

Lemma keys_empty : keys ∅ = [].
Proof. unfold keys. by rewrite map_to_list_empty. Qed.

(** A shard-set query on a node whose sharder reports no shard. *)
Lemma getShards_without_shards {W : Type} (h : handler W)
    (p : Z -> prog (result bool)) (w : W) :
  (h _ sharder_NumShards w).1 <= 0 ->
  run h (getShards p) w =
  Outcome (Ok ∅) [sharder_NumShards ↦ (h _ sharder_NumShards w).1]
    (h _ sharder_NumShards w).2.
Proof.
  intros Hn. unfold getShards. rewrite run_bind, run_trigger.
  cbn [value calls state].
  replace (Z.to_nat (h _ sharder_NumShards w).1) with 0%nat by lia.
  reflexivity.
Qed.

Lemma for_range_empty {W : Type} (h : handler W)
    (body : Z -> prog (option error)) (w : W) :
  go_range h ->
  run h (for_range ∅ body) w =
  Outcome None [range_map ∅ ↦ []] (h _ (range_map ∅) w).2.
Proof.
  intros Hrange. unfold for_range. rewrite run_bind, run_trigger.
  cbn [value calls state].
  pose proof (Hrange ∅ w) as Hperm. rewrite keys_empty in Hperm.
  apply Permutation_nil_r in Hperm. rewrite Hperm. reflexivity.
Qed.

(** X4.  On a node whose sharder reports no shard (a count of zero, or a
    negative one), [InitRepository] succeeds without a question to the
    router and without a call to the driver: it asks for the shard count
    twice and walks two empty maps. *)
Theorem InitRepository_without_shards {W : Type} (h : handler W) (w : W)
    (ctx : Context) (req : InitRepositoryRequest)
    (Hn : forall w', (h _ sharder_NumShards w').1 <= 0)
    (Hrange : go_range h) :
  let o := run h (InitRepository ctx req) w in
  value o = Ok InitRepositoryResponse_empty
  /\ calls_to TheRouter (calls o) = []
  /\ calls_to TheDriver (calls o) = []
  /\ exists n1 n2,
       calls o = [sharder_NumShards ↦ n1; range_map ∅ ↦ [];
                  sharder_NumShards ↦ n2; range_map ∅ ↦ []].
Proof.
  cbv zeta. pose proof (InitRepository_steps h w ctx req) as H. cbv zeta in H.
  unfold getMasterShards, getSlaveShards in H.
  rewrite (getShards_without_shards h _ w (Hn w)) in H. cbn [value calls state] in H.
  rewrite (for_range_empty h _ _ Hrange) in H. cbn [value calls state] in H.
  rewrite (getShards_without_shards h _ _ (Hn _)) in H. cbn [value calls state] in H.
  rewrite (for_range_empty h _ _ Hrange) in H. cbn [value calls state] in H.
  rewrite H. cbn [value calls app].
  repeat split. eauto.
Qed.

Lemma InitRepository_without_shards_witness :
  let o := run (fake no_shards) (InitRepository Background repo_request) [] in
  value o = Ok InitRepositoryResponse_empty
  /\ calls_to TheRouter (calls o) = []
  /\ calls_to TheDriver (calls o) = []
  /\ exists n1 n2,
       calls o = [sharder_NumShards ↦ n1; range_map ∅ ↦ [];
                  sharder_NumShards ↦ n2; range_map ∅ ↦ []].
Proof.
  apply (InitRepository_without_shards (fake no_shards) [] Background repo_request).
  - intros w'. simpl. lia.
  - apply fake_go_range, ascending_perm.
Defined.

(** X5.  A single-path operation asks the sharder once, so the shard of a
    request is computed once and not again, asks the router at most
    twice (whether the shard is local, and for the client of its owner),
    and makes at most four calls ([PutFile]) or five ([GetFile]) in
    all. *)
Theorem single_path_call_budget {W : Type} (h : handler W) (w : W) :
  (forall ctx req,
      let tr := calls (run h (PutFile ctx req) w) in
      length (calls_to TheSharder tr) = 1%nat
      /\ (length (calls_to TheRouter tr) <= 2)%nat
      /\ (length tr <= 4)%nat)
  /\ (forall req srv,
        let tr := calls (run h (GetFile req srv) w) in
        length (calls_to TheSharder tr) = 1%nat
        /\ (length (calls_to TheRouter tr) <= 2)%nat
        /\ (length tr <= 5)%nat).
Proof.
  split.
  - intros ctx req. cbv zeta.
    destruct (PutFile_calls h w ctx req)
      as [(e & -> & _) | [(s & e & -> & _) | [(s & e & -> & _)
         | [(s & e & -> & _) | (s & c & r & -> & _)]]]];
      repeat split; simpl; lia.
  - intros req srv. cbv zeta.
    destruct (GetFile_calls h w req srv)
      as [(e & -> & _) | [(s & e & -> & _) | [(s & e & -> & _)
         | [(s & rc & e1 & e2 & -> & _) | [(s & e & -> & _)
         | [(s & c & e & -> & _) | (s & c & st & e & -> & _)]]]]]];
      repeat split; simpl; lia.
Qed.

(** X6.  The streams [GetFile] closes are the streams the driver has
    handed to it: a stream that [driver.GetFile] returns is closed once,
    on every path, and nothing else is ever closed, in particular
    nothing on the forwarded path.  [PutFile] opens and closes no
    stream. *)
Theorem streams_closed_are_streams_opened {W : Type} (h : handler W) (w : W) :
  (forall req srv,
      let tr := calls (run h (GetFile req srv) w) in
      closed tr = opened tr /\ (length (opened tr) <= 1)%nat)
  /\ (forall ctx req,
        let tr := calls (run h (PutFile ctx req) w) in
        closed tr = [] /\ opened tr = []).
Proof.
  split.
  - intros req srv. cbv zeta.
    destruct (GetFile_calls h w req srv)
      as [(e & -> & _) | [(s & e & -> & _) | [(s & e & -> & _)
         | [(s & rc & e1 & e2 & -> & _) | [(s & e & -> & _)
         | [(s & c & e & -> & _) | (s & c & st & e & -> & _)]]]]]];
      split; try reflexivity; simpl; lia.
  - intros ctx req. cbv zeta.
    destruct (PutFile_calls h w ctx req)
      as [(e & -> & _) | [(s & e & -> & _) | [(s & e & -> & _)
         | [(s & e & -> & _) | (s & c & r & -> & _)]]]];
      split; reflexivity.
Qed.

(** X7.  A read and a write of one path, started in the same state, are
    routed alike: [GetFile] and [PutFile] put the same question to the
    sharder and the same questions to the router, with the same answers,
    and one calls the driver exactly when the other does. *)
Theorem read_and_write_routed_alike {W : Type} (h : handler W) (w : W)
    (path : Path) (srv : Api_GetFileServer) (ctx : Context) (payload : list byte) :
  let reads := calls (run h (GetFile {| gf_Path := path |} srv) w) in
  let writes := calls (run h (PutFile ctx {| pf_Path := path; pf_Value := payload |}) w) in
  calls_to TheSharder reads = calls_to TheSharder writes
  /\ calls_to TheRouter reads = calls_to TheRouter writes
  /\ (calls_to TheDriver reads = [] <-> calls_to TheDriver writes = [])
  /\ (calls_to RemoteClient reads = [] <-> calls_to RemoteClient writes = []).
Proof.
  cbv zeta. unfold GetFile, PutFile. straight_line; by repeat split.
Qed.

(** ** Command-line arguments *)

Lemma append_String (c : ascii) (a b : string) :
  String c a +:+ b = String c (a +:+ b).
Proof. reflexivity. Qed.

Lemma append_empty_r (a : string) : a +:+ "" = a.
Proof. induction a as [| c a IH]; [reflexivity |]. by rewrite append_String, IH. Qed.

Lemma has_byte_cons (sep c : ascii) (s : string) :
  has_byte sep (String c s) = false -> Ascii.eqb c sep = false /\ has_byte sep s = false.
Proof. simpl. apply orb_false_elim. Qed.

Lemma split_cuts_0 (sep : ascii) (s : string) : split_cuts sep 0 s = (s, []).
Proof. by destruct s. Qed.

Lemma split_cuts_miss (sep : ascii) (cuts : nat) (s : string) :
  has_byte sep s = false -> split_cuts sep cuts s = (s, []).
Proof.
  induction s as [| c s IH]; intros Hs; [reflexivity |].
  apply has_byte_cons in Hs as [Hc Hs].
  destruct cuts; [reflexivity |]. simpl. by rewrite Hc, (IH Hs).
Qed.

Lemma split_cuts_hit (sep : ascii) (cuts : nat) (a b : string) :
  has_byte sep a = false ->
  split_cuts sep (S cuts) (a +:+ String sep b) =
  (a, let (p, ps) := split_cuts sep cuts b in p :: ps).
Proof.
  induction a as [| c a IH]; intros Ha.
  - change ("" +:+ String sep b) with (String sep b). simpl.
    by rewrite Ascii.eqb_refl.
  - apply has_byte_cons in Ha as [Hc Ha].
    rewrite append_String. simpl. rewrite Hc.
    change (split_cuts sep (S cuts) (a +:+ String sep b)) with
      (split_cuts sep (S cuts) (a +:+ String sep b)).
    by rewrite (IH Ha).
Qed.

(** A string has no separator, or it has a first one. *)
Lemma first_separator (sep : ascii) (s : string) :
  has_byte sep s = false
  \/ exists a b, s = a +:+ String sep b /\ has_byte sep a = false.
Proof.
  induction s as [| c s IH]; [by left |].
  destruct (Ascii.eqb c sep) eqn:Hc.
  - right. apply Ascii.eqb_eq in Hc as ->. by exists "", s.
  - destruct IH as [Hs | (a & b & -> & Ha)].
    + left. simpl. by rewrite Hc.
    + right. exists (String c a), b. split; [reflexivity |].
      simpl. by rewrite Hc.
Qed.

Lemma SplitN_2_miss (sep : ascii) (s : string) :
  has_byte sep s = false -> strings_SplitN s sep 2 = [s].
Proof. intros Hs. unfold strings_SplitN. simpl. by rewrite split_cuts_miss. Qed.

Lemma SplitN_2_hit (sep : ascii) (a b : string) :
  has_byte sep a = false -> strings_SplitN (a +:+ String sep b) sep 2 = [a; b].
Proof.
  intros Ha. unfold strings_SplitN.
  change (if 2 =? 0 then _ else _) with
    (let (p, ps) := split_cuts sep 1 (a +:+ String sep b) in p :: ps).
  by rewrite split_cuts_hit, split_cuts_0.
Qed.

Lemma ParseCommit_miss (arg : string) :
  has_byte "@" arg = false ->
  ParseCommit arg =
  if String.eqb arg "" then Err (repo_cannot_be_empty arg)
  else Ok {| pfsclient.Commit_Repo := {| pfsclient.Repo_Name := arg |};
             pfsclient.Commit_ID := "" |}.
Proof. intros Harg. unfold ParseCommit. by rewrite SplitN_2_miss. Qed.

Lemma ParseCommit_hit (repo id : string) :
  has_byte "@" repo = false ->
  ParseCommit (repo +:+ "@" +:+ id) =
  if String.eqb repo "" then Err (repo_cannot_be_empty (repo +:+ "@" +:+ id))
  else Ok {| pfsclient.Commit_Repo := {| pfsclient.Repo_Name := repo |};
             pfsclient.Commit_ID := id |}.
Proof.
  intros Hrepo. unfold ParseCommit.
  change (repo +:+ "@" +:+ id) with (repo +:+ String "@" id).
  by rewrite SplitN_2_hit.
Qed.

Lemma eqb_nonempty (s : string) : s <> "" -> String.eqb s "" = false.
Proof. intros Hs. by apply String.eqb_neq. Qed.

(** X8.  [ParseCommit] and [ParseBranch] read back what "repo@id" is
    made of.  For a repo name that is not empty and holds no "@", the
    argument "repo" alone gives that repo with an empty id, and
    "repo@id" gives that repo and that id, whatever the id: it may be
    empty and may itself hold "@". *)
Theorem ParseCommit_round_trip (repo : string)
    (Hrepo : repo <> "") (Hat : has_byte "@" repo = false) :
  ParseCommit repo =
    Ok {| pfsclient.Commit_Repo := {| pfsclient.Repo_Name := repo |};
          pfsclient.Commit_ID := "" |}
  /\ ParseBranch repo =
     Ok {| pfsclient.Branch_Repo := {| pfsclient.Repo_Name := repo |};
           pfsclient.Branch_Name := "" |}
  /\ forall id,
       ParseCommit (repo +:+ "@" +:+ id) =
         Ok {| pfsclient.Commit_Repo := {| pfsclient.Repo_Name := repo |};
               pfsclient.Commit_ID := id |}
       /\ ParseBranch (repo +:+ "@" +:+ id) =
          Ok {| pfsclient.Branch_Repo := {| pfsclient.Repo_Name := repo |};
                pfsclient.Branch_Name := id |}.
Proof.
  unfold ParseBranch.
  rewrite (ParseCommit_miss repo Hat), (eqb_nonempty repo Hrepo).
  repeat split; by rewrite (ParseCommit_hit repo id Hat), (eqb_nonempty repo Hrepo).
Qed.

Lemma ParseCommit_round_trip_witness :
  ParseCommit "images@master@{1}" =
  Ok {| pfsclient.Commit_Repo := {| pfsclient.Repo_Name := "images" |};
        pfsclient.Commit_ID := "master@{1}" |}.
Proof.
  destruct (ParseCommit_round_trip "images" ltac:(discriminate) eq_refl)
    as (_ & _ & Hid).
  apply (Hid "master@{1}"%string).
Defined.

(** X9.  [ParseCommit] and [ParseBranch] fail exactly on the arguments
    whose repo part is empty, the empty argument and the arguments that
    start with "@", and always with the same message, which quotes the
    argument. *)
Theorem ParseCommit_rejects_empty_repo (arg : string) :
  ((exists err, ParseCommit arg = Err err) <->
   arg = "" \/ exists rest, arg = "@" +:+ rest)
  /\ (forall err, ParseCommit arg = Err err -> err = repo_cannot_be_empty arg)
  /\ (forall err, ParseBranch arg = Err err <-> ParseCommit arg = Err err).
Proof.
  assert (Hcases :
            (arg = "" \/ exists rest, arg = "@" +:+ rest)
            /\ ParseCommit arg = Err (repo_cannot_be_empty arg)
            \/ ~ (arg = "" \/ exists rest, arg = "@" +:+ rest)
               /\ exists c, ParseCommit arg = Ok c).
  { destruct (first_separator "@" arg) as [Hmiss | (a & b & -> & Ha)].
    - rewrite (ParseCommit_miss arg Hmiss).
      destruct arg as [| c arg]; [left; by split; [left |] |].
      right. split; [| by eexists].
      intros [Hempty | (rest & Hrest)]; [discriminate |].
      injection Hrest as -> _. apply has_byte_cons in Hmiss as [Hc _].
      by rewrite Ascii.eqb_refl in Hc.
    - change (a +:+ String "@" b) with (a +:+ "@" +:+ b).
      rewrite (ParseCommit_hit a b Ha).
      destruct a as [| c a].
      + left. split; [right; by exists b | reflexivity].
      + right. split; [| by eexists].
        intros [Hempty | (rest & Hrest)]; [discriminate |].
        injection Hrest as -> _. apply has_byte_cons in Ha as [Hc _].
        by rewrite Ascii.eqb_refl in Hc. }
  unfold ParseBranch.
  destruct Hcases as [[Hbad ->] | [Hgood (c & ->)]].
  - split; [split; [done | by eexists] |].
    split; [by intros err [= <-] | intros err; split; by intros [= <-]].
  - split; [split; [by intros (err & ?) | done] |].
    split; [by intros err ? | intros err; split; discriminate].
Qed.

(** X10.  What [ParseCommit] accepts, it can be given back: the repo name
    of the commit it returns is not empty and holds no "@", the argument
    was that name alone (and then the id is empty) or "name@id", and
    "name@id" parses to the same commit again. *)
Theorem ParseCommit_inverse (arg : string) (c : pfsclient.Commit)
    (Hparse : ParseCommit arg = Ok c) :
  let repo := pfsclient.Repo_Name (pfsclient.Commit_Repo c) in
  let id := pfsclient.Commit_ID c in
  repo <> ""
  /\ has_byte "@" repo = false
  /\ (arg = repo /\ id = "" \/ arg = repo +:+ "@" +:+ id)
  /\ ParseCommit (repo +:+ "@" +:+ id) = Ok c.
Proof.
  cbv zeta.
  destruct (first_separator "@" arg) as [Hmiss | (a & b & -> & Ha)].
  - rewrite (ParseCommit_miss arg Hmiss) in Hparse.
    destruct (String.eqb_spec arg "") as [| Hne]; [discriminate Hparse |].
    injection Hparse as <-. cbn [pfsclient.Repo_Name pfsclient.Commit_Repo pfsclient.Commit_ID].
    repeat split; [exact Hne | exact Hmiss | by left |].
    by rewrite (ParseCommit_hit arg "" Hmiss), (eqb_nonempty arg Hne).
  - change (a +:+ String "@" b) with (a +:+ "@" +:+ b) in *.
    rewrite (ParseCommit_hit a b Ha) in Hparse.
    destruct (String.eqb_spec a "") as [| Hne]; [discriminate Hparse |].
    injection Hparse as <-. cbn [pfsclient.Repo_Name pfsclient.Commit_Repo pfsclient.Commit_ID].
    repeat split; [exact Hne | exact Ha | by right |].
    by rewrite (ParseCommit_hit a b Ha), (eqb_nonempty a Hne).
Qed.

Lemma ParseCommit_inverse_witness :
  let c := {| pfsclient.Commit_Repo := {| pfsclient.Repo_Name := "images" |};
              pfsclient.Commit_ID := "" |} in
  ("images"%string = "images"%string /\ ""%string = ""%string
   \/ "images"%string = "images" +:+ "@" +:+ "")
  /\ ParseCommit ("images" +:+ "@" +:+ "") = Ok c.
Proof.
  destruct (ParseCommit_inverse "images" _ eq_refl) as (_ & _ & Harg & Hagain).
  split; [exact Harg | exact Hagain].
Defined.

Lemma ParseFile_miss (arg : string) :
  has_byte "@" arg = false ->
  ParseFile arg =
  if String.eqb arg "" then Err (repo_cannot_be_empty arg)
  else Ok {| pfsclient.File_Commit :=
               {| pfsclient.Commit_Repo := {| pfsclient.Repo_Name := arg |};
                  pfsclient.Commit_ID := "" |};
             pfsclient.File_Path := "" |}.
Proof. intros Harg. unfold ParseFile. by rewrite SplitN_2_miss. Qed.

Lemma ParseFile_hit (repo rest : string) :
  has_byte "@" repo = false ->
  ParseFile (repo +:+ "@" +:+ rest) =
  let arg := repo +:+ "@" +:+ rest in
  let parts := strings_SplitN rest ":" 2 in
  if String.eqb repo "" then Err (repo_cannot_be_empty arg)
  else if String.eqb (part parts 0) "" then Err (commit_cannot_be_empty arg)
  else Ok {| pfsclient.File_Commit :=
               {| pfsclient.Commit_Repo := {| pfsclient.Repo_Name := repo |};
                  pfsclient.Commit_ID := part parts 0 |};
             pfsclient.File_Path :=
               if (1 <? length parts)%nat then part parts 1 else "" |}.
Proof.
  intros Hrepo. unfold ParseFile.
  change (repo +:+ "@" +:+ rest) with (repo +:+ String "@" rest).
  rewrite (SplitN_2_hit "@" repo rest Hrepo). cbv zeta.
  change (part [repo; rest] 0) with repo.
  change (part [repo; rest] 1) with rest.
  change (1 <? length [repo; rest])%nat with true. cbv iota.
  generalize (strings_SplitN rest ":" 2). intros parts.
  destruct (String.eqb repo ""); [reflexivity |].
  destruct (String.eqb (part parts 0) ""); [reflexivity |].
  by destruct (1 <? length parts)%nat.
Qed.

(** X11.  [ParseFile] reads back what "repo@commit:path" is made of.  For
    a repo name that is not empty and holds no "@" and a commit that is
    not empty and holds no ":", "repo" gives the repo with an empty
    commit and path, "repo@commit" gives the repo and the commit with an
    empty path, and "repo@commit:path" gives the three, whatever the
    path. *)
Theorem ParseFile_round_trip (repo commit : string)
    (Hrepo : repo <> "") (Hat : has_byte "@" repo = false)
    (Hcommit : commit <> "") (Hcolon : has_byte ":" commit = false) :
  let file c p :=
    {| pfsclient.File_Commit :=
         {| pfsclient.Commit_Repo := {| pfsclient.Repo_Name := repo |};
            pfsclient.Commit_ID := c |};
       pfsclient.File_Path := p |} in
  ParseFile repo = Ok (file "" "")
  /\ ParseFile (repo +:+ "@" +:+ commit) = Ok (file commit "")
  /\ forall path, ParseFile (repo +:+ "@" +:+ commit +:+ ":" +:+ path) = Ok (file commit path).
Proof.
  cbv zeta. split; [| split].
  - by rewrite (ParseFile_miss repo Hat), (eqb_nonempty repo Hrepo).
  - rewrite (ParseFile_hit repo commit Hat). cbv zeta.
    rewrite (SplitN_2_miss ":" commit Hcolon), (eqb_nonempty repo Hrepo).
    cbn [part nth]. by rewrite (eqb_nonempty commit Hcommit).
  - intros path. rewrite (ParseFile_hit repo _ Hat). cbv zeta.
    change (commit +:+ ":" +:+ path) with (commit +:+ String ":" path).
    rewrite (SplitN_2_hit ":" commit path Hcolon), (eqb_nonempty repo Hrepo).
    cbn [part nth]. by rewrite (eqb_nonempty commit Hcommit).
Qed.

Lemma ParseFile_round_trip_witness :
  ParseFile "images@master:/a/b:c.png" =
  Ok {| pfsclient.File_Commit :=
          {| pfsclient.Commit_Repo := {| pfsclient.Repo_Name := "images" |};
             pfsclient.Commit_ID := "master" |};
        pfsclient.File_Path := "/a/b:c.png" |}.
Proof.
  destruct (ParseFile_round_trip "images" "master" ltac:(discriminate) eq_refl
              ltac:(discriminate) eq_refl) as (_ & _ & Hpath).
  apply (Hpath "/a/b:c.png"%string).
Defined.

(** X12.  [ParseFile] is stricter than [ParseCommit] about what follows
    "@".  For a repo name that is not empty and holds no "@", "repo@" and
    "repo@:path" are rejected by [ParseFile], the commit being empty,
    while [ParseCommit] accepts both, with the ids "" and ":path". *)
Theorem ParseFile_rejects_empty_commit (repo : string)
    (Hrepo : repo <> "") (Hat : has_byte "@" repo = false) :
  ParseFile (repo +:+ "@") = Err (commit_cannot_be_empty (repo +:+ "@"))
  /\ ParseCommit (repo +:+ "@") =
     Ok {| pfsclient.Commit_Repo := {| pfsclient.Repo_Name := repo |};
           pfsclient.Commit_ID := "" |}
  /\ forall path,
       ParseFile (repo +:+ "@" +:+ ":" +:+ path) =
         Err (commit_cannot_be_empty (repo +:+ "@" +:+ ":" +:+ path))
       /\ ParseCommit (repo +:+ "@" +:+ ":" +:+ path) =
          Ok {| pfsclient.Commit_Repo := {| pfsclient.Repo_Name := repo |};
                pfsclient.Commit_ID := ":" +:+ path |}.
Proof.
  split; [| split; [| intros path; split]].
  - change (repo +:+ "@") with (repo +:+ "@" +:+ "").
    rewrite (ParseFile_hit repo "" Hat). cbv zeta.
    by rewrite (eqb_nonempty repo Hrepo).
  - change (repo +:+ "@") with (repo +:+ "@" +:+ "").
    by rewrite (ParseCommit_hit repo "" Hat), (eqb_nonempty repo Hrepo).
  - rewrite (ParseFile_hit repo _ Hat). cbv zeta.
    by rewrite (eqb_nonempty repo Hrepo).
  - by rewrite (ParseCommit_hit repo _ Hat), (eqb_nonempty repo Hrepo).
Qed.

Lemma ParseFile_rejects_empty_commit_witness :
  ParseFile "images@" = Err (commit_cannot_be_empty "images@")
  /\ ParseCommit "images@" =
     Ok {| pfsclient.Commit_Repo := {| pfsclient.Repo_Name := "images" |};
           pfsclient.Commit_ID := "" |}.
Proof.
  destruct (ParseFile_rejects_empty_commit "images" ltac:(discriminate) eq_refl)
    as (Hfile & Hcommit & _).
  split; [exact Hfile | exact Hcommit].
Defined.

(** X13.  Every file argument is a commit argument: when [ParseFile]
    accepts an argument, [ParseCommit] accepts it too, with the same
    repo, and its id is the commit of the file, followed by ":" and the
    path when the argument has a ":" after the commit.  When
    [ParseCommit] rejects an argument, [ParseFile] rejects it with the
    same error. *)
Theorem ParseFile_refines_ParseCommit (arg : string) :
  (forall f, ParseFile arg = Ok f ->
     exists c,
       ParseCommit arg = Ok c
       /\ pfsclient.Commit_Repo c = pfsclient.Commit_Repo (pfsclient.File_Commit f)
       /\ (pfsclient.Commit_ID c = pfsclient.Commit_ID (pfsclient.File_Commit f)
           /\ pfsclient.File_Path f = ""
           \/ pfsclient.Commit_ID c =
              pfsclient.Commit_ID (pfsclient.File_Commit f) +:+ ":"
              +:+ pfsclient.File_Path f))
  /\ (forall err, ParseCommit arg = Err err -> ParseFile arg = Err err).
Proof.
  destruct (first_separator "@" arg) as [Hmiss | (a & b & -> & Ha)].
  - rewrite (ParseCommit_miss arg Hmiss), (ParseFile_miss arg Hmiss).
    destruct (String.eqb arg "").
    { split; [discriminate | by intros err [= <-]]. }
    split; [| discriminate].
    intros f [= <-]. eexists. split; [reflexivity |]. split; [reflexivity | by left].
  - change (a +:+ String "@" b) with (a +:+ "@" +:+ b).
    rewrite (ParseCommit_hit a b Ha), (ParseFile_hit a b Ha). cbv zeta.
    destruct (String.eqb a "").
    { split; [discriminate | by intros err [= <-]]. }
    split; [| discriminate].
    destruct (first_separator ":" b) as [Hb | (c & p & -> & Hc)].
    + rewrite (SplitN_2_miss ":" b Hb). cbn [part nth length Nat.ltb Nat.leb].
      destruct (String.eqb b ""); [discriminate |].
      intros f [= <-]. eexists. split; [reflexivity |]. split; [reflexivity | by left].
    + rewrite (SplitN_2_hit ":" c p Hc). cbn [part nth length Nat.ltb Nat.leb].
      destruct (String.eqb c ""); [discriminate |].
      intros f [= <-]. eexists. split; [reflexivity |]. split; [reflexivity | by right].
Qed.

(** The parsers never index a slice out of range: a split in two gives
    one or two parts. *)
Lemma SplitN_2_length (sep : ascii) (s : string) :
  length (strings_SplitN s sep 2) = 1%nat \/ length (strings_SplitN s sep 2) = 2%nat.
Proof.
  destruct (first_separator sep s) as [Hs | (a & b & -> & Ha)].
  - left. by rewrite SplitN_2_miss.
  - right. by rewrite SplitN_2_hit.
Qed.

Lemma parse_args_ok {A : Type} (parse : string -> result A) (args : list string)
    (results rs : list A) :
  parse_args parse args results = Ok rs <->
  exists xs, rs = results ++ xs /\ Forall2 (fun a x => parse a = Ok x) args xs.
Proof.
  revert results. induction args as [| arg args IH]; intros results; simpl.
  - split.
    + intros [= <-]. exists []. by rewrite app_nil_r.
    + intros (xs & -> & Hxs). apply Forall2_nil_inv_l in Hxs as ->.
      by rewrite app_nil_r.
  - destruct (parse arg) as [x | err] eqn:Harg.
    + rewrite IH. split.
      * intros (xs & -> & Hxs). exists (x :: xs).
        split; [by rewrite <- app_assoc | by constructor].
      * intros (xs & -> & Hxs).
        apply Forall2_cons_inv_l in Hxs as (x' & xs' & Hx' & Hxs' & ->).
        rewrite Harg in Hx'. injection Hx' as <-.
        exists xs'. split; [by rewrite <- app_assoc | done].
    + split; [discriminate |].
      intros (xs & _ & Hxs).
      apply Forall2_cons_inv_l in Hxs as (x' & xs' & Hx' & _).
      rewrite Harg in Hx'. discriminate Hx'.
Qed.

Lemma parse_args_err {A : Type} (parse : string -> result A) (args : list string)
    (results : list A) (err : error) :
  parse_args parse args results = Err err <->
  exists pre arg post,
    args = pre ++ arg :: post
    /\ Forall (fun a => exists x, parse a = Ok x) pre
    /\ parse arg = Err err.
Proof.
  revert results. induction args as [| arg args IH]; intros results; simpl.
  - split; [discriminate |]. intros (pre & a & post & Hnil & _).
    by destruct pre.
  - destruct (parse arg) as [x | err'] eqn:Harg.
    + rewrite IH. split.
      * intros (pre & a & post & -> & Hpre & Ha).
        exists (arg :: pre), a, post. repeat split; [| done].
        constructor; [by exists x | done].
      * intros (pre & a & post & Hargs & Hpre & Ha).
        destruct pre as [| p pre].
        { injection Hargs as -> ->. rewrite Harg in Ha. discriminate Ha. }
        injection Hargs as -> ->. apply Forall_cons in Hpre as [_ Hpre].
        by exists pre, a, post.
    + split.
      * intros [= ->]. by exists [], arg, args.
      * intros (pre & a & post & Hargs & Hpre & Ha).
        destruct pre as [| p pre].
        { injection Hargs as -> ->. rewrite Harg in Ha. by injection Ha as ->. }
        injection Hargs as -> ->. apply Forall_cons in Hpre as [(x & Hx) _].
        rewrite Harg in Hx. discriminate Hx.
Qed.

(** X14.  [ParseCommits], [ParseBranches] and [ParseFiles] parse all or
    nothing: they succeed exactly when every argument parses, and then
    return one result per argument, in the order of the arguments; they
    fail exactly when some argument does not parse, with the error of
    the first such argument. *)
Theorem parsers_of_lists_all_or_nothing (args : list string) :
  let all_or_nothing {A : Type} (parse : string -> result A)
        (parse_all : list string -> result (list A)) :=
    (forall rs,
        parse_all args = Ok rs <-> Forall2 (fun a x => parse a = Ok x) args rs)
    /\ (forall err,
          parse_all args = Err err <->
          exists pre arg post,
            args = pre ++ arg :: post
            /\ Forall (fun a => exists x, parse a = Ok x) pre
            /\ parse arg = Err err) in
  all_or_nothing ParseCommit ParseCommits
  /\ all_or_nothing ParseBranch ParseBranches
  /\ all_or_nothing ParseFile ParseFiles.
Proof.
  cbv zeta. unfold ParseCommits, ParseBranches, ParseFiles.
  repeat split; try apply parse_args_err;
    try (intros Hok; apply parse_args_ok in Hok as (xs & -> & Hxs); exact Hxs);
    intros Hall; apply parse_args_ok; by eexists.
Qed.

Lemma append_assoc (a b c : string) : (a +:+ b) +:+ c = a +:+ b +:+ c.
Proof.
  induction a as [| x a IH]; [reflexivity |].
  by rewrite !append_String, IH.
Qed.

Lemma RepeatedStringArg_String_loop_joins (i : nat) (r : list string) (acc : string) :
  RepeatedStringArg_String_loop i r acc =
  acc +:+ match r with
          | [] => ""
          | _ => (if (i =? 0)%nat then "" else ", ") +:+ String.concat ", " r
          end.
Proof.
  revert i acc. induction r as [| s r IH]; intros i acc.
  - by rewrite append_empty_r.
  - cbn [RepeatedStringArg_String_loop]. rewrite IH.
    destruct r as [| s' r].
    + rewrite append_empty_r. cbn [String.concat].
      destruct (i =? 0)%nat; [reflexivity | by rewrite append_assoc].
    + change (S i =? 0)%nat with false. cbv iota.
      change (String.concat ", " (s :: s' :: r)) with
        (s +:+ ", " +:+ String.concat ", " (s' :: r)).
      destruct (i =? 0)%nat; by rewrite !append_assoc.
Qed.

Lemma fold_left_snoc {A B : Type} (f : A -> B) (l : list A) (acc : list B) :
  fold_left (fun acc x => acc ++ [f x]) l acc = acc ++ (f <$> l).
Proof.
  revert acc. induction l as [| x l IH]; intros acc; simpl.
  - by rewrite app_nil_r.
  - by rewrite IH, <- app_assoc.
Qed.

(** X15.  A repeated string flag prints as its values joined by ", "
    between square brackets, "[]" when it has none, and setting the flag
    again and again keeps every value, in the order given, and never
    fails. *)
Theorem RepeatedStringArg_keeps_values (r : RepeatedStringArg) (values : list string) :
  RepeatedStringArg_String r = "[" +:+ String.concat ", " r +:+ "]"
  /\ fold_left (fun r s => (RepeatedStringArg_Set r s).1) values r = r ++ values
  /\ forall s, (RepeatedStringArg_Set r s).2 = None.
Proof.
  split; [| split; [| done]].
  - unfold RepeatedStringArg_String.
    rewrite RepeatedStringArg_String_loop_joins, append_assoc.
    by destruct r.
  - revert r. induction values as [| v values IH]; intros r; simpl.
    + by rewrite app_nil_r.
    + by rewrite IH, <- app_assoc.
Qed.

Lemma replace_first_hit (old new : ascii) (count : nat) (a b : string) :
  has_byte old a = false ->
  replace_first old new (S count) (a +:+ String old b) =
  a +:+ String new (replace_first old new count b).
Proof.
  induction a as [| c a IH]; intros Ha.
  - change ("" +:+ String old b) with (String old b). simpl.
    by rewrite Ascii.eqb_refl.
  - apply has_byte_cons in Ha as [Hc Ha].
    rewrite !append_String. simpl. by rewrite Hc, (IH Ha).
Qed.

Lemma replace_first_0 (old new : ascii) (s : string) : replace_first old new 0 s = s.
Proof. by destruct s. Qed.

(** X16.  The commands of version 1.8 that took "repo/commit" arguments
    hand them to the new commands as "repo@commit".  For repo names that
    are not empty and hold neither "/" nor "@",
    [transformRepoSlashBranch] runs the new command on the arguments
    "repo@commit", and [ParseCommits] reads the repos and the commits back
    from them; a commit may itself hold "/" or "@". *)
Theorem transformRepoSlashBranch_feeds_ParseCommits {S : Type}
    (newRun : list string -> S -> S) (st : S) (pairs : list (string * string))
    (Hpairs : Forall (fun p => p.1 <> "" /\ has_byte "/" p.1 = false
                               /\ has_byte "@" p.1 = false) pairs) :
  let newArgs := (fun p => p.1 +:+ "@" +:+ p.2) <$> pairs in
  transformRepoSlashBranch newRun ((fun p => p.1 +:+ "/" +:+ p.2) <$> pairs) st =
    (None, newRun newArgs st)
  /\ ParseCommits newArgs =
     Ok ((fun p => {| pfsclient.Commit_Repo := {| pfsclient.Repo_Name := p.1 |};
                      pfsclient.Commit_ID := p.2 |}) <$> pairs).
Proof.
  cbv zeta. split.
  - unfold transformRepoSlashBranch. rewrite fold_left_snoc. cbn [app].
    do 2 f_equal. rewrite <- list_fmap_compose.
    apply Forall_fmap_ext_1. eapply Forall_impl; [exact Hpairs |].
    intros [repo commit] (_ & Hslash & _). cbn [fst snd compose].
    unfold strings_Replace. change (Z.to_nat 1) with 1%nat. cbv iota.
    change (if 1 <? 0 then _ else 1%nat) with 1%nat.
    change (repo +:+ "/" +:+ commit) with (repo +:+ String "/" commit).
    by rewrite (replace_first_hit "/" "@" 0 repo commit Hslash), replace_first_0.
  - apply parse_args_ok. eexists. split; [reflexivity |].
    apply Forall2_fmap, Forall_Forall2_diag.
    eapply Forall_impl; [exact Hpairs |].
    intros [repo commit] (Hrepo & _ & Hat). cbn [fst snd].
    by rewrite (ParseCommit_hit repo commit Hat), (eqb_nonempty repo Hrepo).
Qed.

Lemma transformRepoSlashBranch_feeds_ParseCommits_witness :
  transformRepoSlashBranch (fun args (seen : list (list string)) => args :: seen)
    ["foo/XXX"; "bar/feature/a@b"]%string [] =
  (None, [["foo@XXX"; "bar@feature/a@b"]%string])
  /\ ParseCommits ["foo@XXX"; "bar@feature/a@b"]%string =
     Ok [{| pfsclient.Commit_Repo := {| pfsclient.Repo_Name := "foo" |};
            pfsclient.Commit_ID := "XXX" |};
         {| pfsclient.Commit_Repo := {| pfsclient.Repo_Name := "bar" |};
            pfsclient.Commit_ID := "feature/a@b" |}].
Proof.
  apply (transformRepoSlashBranch_feeds_ParseCommits
           (fun args (seen : list (list string)) => args :: seen) []
           [("foo", "XXX"); ("bar", "feature/a@b")]%string).
  repeat constructor; discriminate.
Defined.

(** X17.  The alias that the loop over [simpleCompat] builds for an old
    command name has that name alone as its [Use] line, whatever the
    [Use] line of the new command: a split into at most one part never
    has two parts, so the arguments of the new [Use] line are never
    carried over. *)
Theorem simpleCompat_Use_drops_arguments (oldName use : string) :
  length (strings_SplitN use " " 1) = 1%nat
  /\ simpleCompat_Use oldName use = oldName.
Proof.
  unfold simpleCompat_Use, strings_SplitN.
  change (if 1 =? 0 then _ else _) with
    (let (p, ps) := split_cuts " " 0 use in p :: ps).
  by rewrite split_cuts_0.
Qed.
